(** * format.py: the LaTeX-to-text formatter with random variations

    A shallow embedding of [CustomLatexNodes2Text] (format.py): the macro
    handlers ([_custom_sqrt_handler], [_custom_frac_handler], ...), the dispatch
    chain [macro_node_to_text], and the tree walk they call back into.

    Python values are modelled as follows.
    - [str] is [string], read as the UTF-8 bytes of the text.
    - [float] is the binary64 [float] of [PrimFloat]; the builtins [float(s)]
      and [str(x)] are parameters of the handlers.
    - A call that may raise returns an [outcome]; the hidden generator of the
      [random] module is threaded through every call as [random_state]. *)

From Stdlib Require Import String Ascii List ZArith Lia Bool Floats DecimalString.
Import ListNotations.
Open Scope string_scope.
Open Scope Z_scope.

Set Warnings "-inexact-float,-register-all".

(** ** Python strings *)

Module Str.

(** [sub in s] *)
Fixpoint contains (sub s : string) : bool :=
  String.prefix sub s ||
  match s with
  | EmptyString => false
  | String _ s' => contains sub s'
  end.

Definition rev (s : string) : string :=
  string_of_list_ascii (List.rev (list_ascii_of_string s)).

Definition drop (n : nat) (s : string) : string :=
  String.substring n (String.length s - n) s.

Definition bytes (l : list nat) : string :=
  string_of_list_ascii (List.map ascii_of_nat l).

(** The code points for which [str.isspace()] holds, in UTF-8:
    U+0009..U+000D, U+001C..U+0020, U+0085, U+00A0, U+1680,
    U+2000..U+200A, U+2028, U+2029, U+202F, U+205F, U+3000. *)
Definition whitespace : list string :=
  List.map bytes
    (List.app
       [[9]; [10]; [11]; [12]; [13]; [28]; [29]; [30]; [31]; [32];
        [194; 133]; [194; 160]; [225; 154; 128]]
       (List.app
          (List.map (fun b => [226; 128; b]) (List.seq 128 11))
          [[226; 128; 168]; [226; 128; 169]; [226; 128; 175];
           [226; 129; 159]; [227; 128; 128]]))%nat.

Fixpoint lstrip_chars (chars : list string) (fuel : nat) (s : string) : string :=
  match fuel with
  | O => s
  | S fuel' =>
      match List.find (fun w => String.prefix w s) chars with
      | Some w => lstrip_chars chars fuel' (drop (String.length w) s)
      | None => s
      end
  end.

Definition lstrip (s : string) : string :=
  lstrip_chars whitespace (String.length s) s.

Definition rstrip (s : string) : string :=
  rev (lstrip_chars (List.map rev whitespace) (String.length s) (rev s)).

(** [s.strip()] *)
Definition strip (s : string) : string := rstrip (lstrip s).

(** [s.split(sep)] for a non-empty separator: [skip] counts the bytes of a
    separator still to be passed over, [cur] is the field read so far,
    reversed. *)
Fixpoint split_from (sep : string) (skip : nat) (cur : list ascii) (s : string)
  : list string :=
  match s with
  | EmptyString => [string_of_list_ascii (List.rev cur)]
  | String c s' =>
      match skip with
      | S k => split_from sep k cur s'
      | O =>
          if String.prefix sep s
          then string_of_list_ascii (List.rev cur)
                 :: split_from sep (String.length sep - 1) [] s'
          else split_from sep O (c :: cur) s'
      end
  end.

Definition split (sep s : string) : list string := split_from sep 0 [] s.

End Str.

(** ** Exceptions and the generator of the [random] module *)

Inductive exception : Type :=
| IndexError
| ValueError
| TypeError
| AttributeError
| ZeroDivisionError.

Definition exception_eqb (a b : exception) : bool :=
  match a, b with
  | IndexError, IndexError
  | ValueError, ValueError
  | TypeError, TypeError
  | AttributeError, AttributeError
  | ZeroDivisionError, ZeroDivisionError => true
  | _, _ => false
  end.

Inductive outcome (A : Type) : Type :=
| Return (a : A)
| Raise (e : exception).
Arguments Return {A} a.
Arguments Raise {A} e.

(** The state of the process-wide generator behind [random.randint] and
    [random.choices], given by the raw numbers it is going to deliver: each
    call consumes the next one. *)
Definition random_state : Type := nat -> Z.

Definition advance (g : random_state) : random_state := fun n => g (S n).

(** A Python computation: it starts from a generator state and ends with a
    value or a raised exception, and the generator state it leaves behind. *)
Definition Py (A : Type) : Type := random_state -> outcome A * random_state.

Definition ret {A} (a : A) : Py A := fun g => (Return a, g).

Definition raise {A} (e : exception) : Py A := fun g => (Raise e, g).

Definition bind {A B} (m : Py A) (k : A -> Py B) : Py B :=
  fun g =>
    match m g with
    | (Return a, g') => k a g'
    | (Raise e, g') => (Raise e, g')
    end.

Declare Scope py_scope.
Delimit Scope py_scope with py.
Notation "x <- m ;; k" := (bind m (fun x => k))
  (at level 61, m at next level, right associativity) : py_scope.
Open Scope py_scope.

Definition lift {A} (o : outcome A) : Py A := fun g => (o, g).

(** [try: m except (excs): handler] *)
Definition try_except {A} (m : Py A) (excs : list exception) (handler : Py A) : Py A :=
  fun g =>
    match m g with
    | (Raise e, g') =>
        if List.existsb (exception_eqb e) excs then handler g' else (Raise e, g')
    | r => r
    end.

(** [l[i]] *)
Definition getitem {X} (l : list X) (i : nat) : Py X :=
  match List.nth_error l i with
  | Some x => ret x
  | None => raise IndexError
  end.

Module random.

Definition next : Py Z := fun g => (Return (g O), advance g).

(** [random.randint(a, b)]: an integer of [a..b]. *)
Definition randint (a b : Z) : Py Z :=
  n <- next ;; ret (a + n mod (b - a + 1)).

(** [random.random()]: a float of [0.0, 1.0), a multiple of 2^-53. *)
Definition random : Py float :=
  n <- next ;;
  ret (PrimFloat.of_uint63 (Uint63.of_Z (n mod 9007199254740992))
       / 9007199254740992)%float.

(** [itertools.accumulate(weights)] *)
Fixpoint accumulate (acc : option float) (weights : list float) : list float :=
  match weights with
  | [] => []
  | w :: ws =>
      let s := match acc with Some a => (a + w)%float | None => w end in
      s :: accumulate (Some s) ws
  end.

(** [bisect(a, x, 0, hi)] on a sorted [a]: the first index below [hi] whose
    entry exceeds [x], or [hi]. *)
Fixpoint bisect (a : list float) (x : float) (hi : nat) : nat :=
  match hi, a with
  | S hi', y :: a' => if (x <? y)%float then O else S (bisect a' x hi')
  | _, _ => O
  end.

(** [random.choices(population, weights=weights)], with its default [k=1]. *)
Definition choices {X} (population : list X) (weights : list float) : Py (list X) :=
  let n := List.length population in
  let cum_weights := accumulate None weights in
  if negb (Nat.eqb (List.length cum_weights) n) then raise ValueError else
  match List.last (List.map Some cum_weights) None with
  | None => raise IndexError
  | Some last =>
      let total := (last + 0)%float in
      if (total <=? 0)%float then raise ValueError else
      u <- random ;;
      x <- getitem population (bisect cum_weights (u * total)%float (n - 1)) ;;
      ret [x]
  end.

End random.

(** ** Macro nodes *)

(** [node.nodeargd]: the parsed arguments of a macro; [argnlist] holds one
    entry per argument of the macro's signature, [None] for an optional
    argument that was not given. *)
Record ParsedArguments (A : Type) : Type := { argnlist : list (option A) }.
Arguments argnlist {A} _.

(** A macro node, over the type [A] of the argument nodes. [nodeargd] is
    [None] when the node carries no parsed arguments. *)
Record MacroNode (A : Type) : Type :=
  { macroname : string; nodeargd : option (ParsedArguments A) }.
Arguments macroname {A} _.
Arguments nodeargd {A} _.

Definition is_in (x : string) (l : list string) : bool :=
  List.existsb (String.eqb x) l.

Definition newline : string := String (ascii_of_nat 10) EmptyString.

(** ** The handlers of [CustomLatexNodes2Text] *)

Section Handlers.

(** The type of argument nodes, and [l2tobj.nodelist_to_text]. *)
Context {A : Type}.
Variable nodelist_to_text : list (option A) -> Py string.

(** The builtins [float(s)] (raising [ValueError] on text that is no
    number) and [str(x)] on floats. *)
Variable builtin_float : string -> outcome float.
Variable builtin_str : float -> string.

(** [a / b] on floats *)
Definition truediv (a b : float) : Py float :=
  if (b =? 0)%float then raise ZeroDivisionError else ret (a / b)%float.

Definition needs_parentheses (text : string) : bool :=
  let operators := ["+"; "-"; "*"; "/"; "^"; " "] in
  List.existsb (fun op => Str.contains op text) operators.

(** The four returns that close each branch of [_custom_sqrt_handler]. *)
Definition power_text (content exp_value : string) (exp_rng : Z) : string :=
  if needs_parentheses content then
    if exp_rng =? 0 then "(" ++ content ++ ")^" ++ exp_value
    else "(" ++ content ++ ")**" ++ exp_value
  else
    if exp_rng =? 0 then content ++ "^" ++ exp_value
    else content ++ "**" ++ exp_value.

(** The body shared by the two branches without a root index. *)
Definition square_root (content : string) (sqrt_rng : Z) : Py string :=
  if sqrt_rng =? 0 then ret ("sqrt(" ++ content ++ ")")
  else
    exp_rng <- random.randint 0 1 ;;
    decimal_rng <- random.randint 0 1 ;;
    let exp_value := if decimal_rng =? 0 then "0.5" else "(1/2)" in
    ret (power_text content exp_value exp_rng).

Definition literal_fraction (root_index : string) : string :=
  "(1/" ++ root_index ++ ")".

Definition _custom_sqrt_handler (node : MacroNode A) : Py string :=
  match nodeargd node with
  | None => ret ""
  | Some args =>
    let argnlist := argnlist args in
    match argnlist with
    | [] => ret ""
    | _ :: _ =>
      sqrt_rng <- random.randint 0 1 ;;
      if (1 <=? List.length argnlist)%nat then
        if (2 <=? List.length argnlist)%nat then
          arg0 <- getitem argnlist 0 ;;
          match arg0 with
          | Some _ =>
            root_index <- nodelist_to_text [arg0] ;;
            arg1 <- getitem argnlist 1 ;;
            content <- nodelist_to_text [arg1] ;;
            radicand <- try_except
                          (r <- lift (builtin_float root_index) ;; ret (Some r))
                          [ValueError; TypeError]
                          (ret None) ;;
            if match radicand with Some r => (r =? 2)%float | None => false end
               && (sqrt_rng =? 0)
            then ret ("sqrt(" ++ content ++ ")")
            else
              exp_rng <- random.randint 0 1 ;;
              exp_value <-
                match radicand with
                | Some r =>
                  try_except
                    (inv_radicand <- truediv 1 r ;;
                     decimal_part <-
                       (if Str.contains "." (builtin_str inv_radicand)
                        then getitem (Str.split "." (builtin_str inv_radicand)) 1
                        else ret "") ;;
                     decimal_rng <- random.randint 0 1 ;;
                     if (String.length decimal_part <=? 5)%nat && (decimal_rng =? 0)
                     then ret (builtin_str inv_radicand)
                     else ret (literal_fraction root_index))
                    [ZeroDivisionError; ValueError]
                    (ret (literal_fraction root_index))
                | None => ret (literal_fraction root_index)
                end ;;
              ret (power_text content exp_value exp_rng)
          | None =>
            arg1 <- getitem argnlist 1 ;;
            content <- nodelist_to_text [arg1] ;;
            square_root content sqrt_rng
          end
        else
          arg0 <- getitem argnlist 0 ;;
          content <- nodelist_to_text [arg0] ;;
          square_root content sqrt_rng
      else ret ""
    end
  end.

Definition is_complex (text : string) : bool :=
  let operators := ["+"; "-"; "*"; "/"; "^"; " "] in
  List.existsb (fun op => Str.contains op (Str.strip text)) operators.

Definition _custom_frac_handler (node : MacroNode A) : Py string :=
  match nodeargd node with
  | None => ret ""
  | Some args =>
    if (List.length (argnlist args) <? 2)%nat then ret "" else
    arg0 <- getitem (argnlist args) 0 ;;
    numerator <- nodelist_to_text [arg0] ;;
    arg1 <- getitem (argnlist args) 1 ;;
    denominator <- nodelist_to_text [arg1] ;;
    if is_complex numerator || is_complex denominator
    then ret ("(" ++ numerator ++ ")/(" ++ denominator ++ ")")
    else ret (numerator ++ "/" ++ denominator)
  end.

Definition _custom_binom_handler (node : MacroNode A) : Py string :=
  match nodeargd node with
  | None => ret ""
  | Some args =>
    if (List.length (argnlist args) <? 2)%nat then ret "" else
    arg0 <- getitem (argnlist args) 0 ;;
    n <- nodelist_to_text [arg0] ;;
    arg1 <- getitem (argnlist args) 1 ;;
    k <- nodelist_to_text [arg1] ;;
    ret ("C(" ++ n ++ "," ++ k ++ ")")
  end.

Definition _custom_mathrm_handler (node : MacroNode A) : Py string :=
  match nodeargd node with
  | None => ret ""
  | Some args =>
    match argnlist args with
    | [] => ret ""
    | _ :: _ =>
      arg0 <- getitem (argnlist args) 0 ;;
      content <- nodelist_to_text [arg0] ;;
      if String.eqb (Str.strip content) "e" then ret "e" else ret content
    end
  end.

Definition _custom_boxed_handler (node : MacroNode A) : Py string :=
  match nodeargd node with
  | None => ret ""
  | Some args =>
    match argnlist args with
    | [] => ret ""
    | _ :: _ =>
      arg0 <- getitem (argnlist args) 0 ;;
      content <- nodelist_to_text [arg0] ;;
      ret ("[" ++ content ++ "]")
    end
  end.

Definition _custom_infty_handler (node : MacroNode A) : Py string :=
  let choices := ["infinity"; "inf"; "∞"] in
  let weights := [0.4; 0.4; 0.2]%float in
  picked <- random.choices choices weights ;;
  getitem picked 0.

Definition _custom_pi_handler (node : MacroNode A) : Py string :=
  let choices := ["pi"; "π"] in
  let weights := [0.8; 0.2]%float in
  picked <- random.choices choices weights ;;
  getitem picked 0.

Definition _greek_letters : list (string * string) :=
  [("alpha", "α"); ("beta", "β"); ("gamma", "γ"); ("delta", "δ"); ("epsilon", "ε");
   ("varepsilon", "ϵ"); ("zeta", "ζ"); ("eta", "η"); ("theta", "θ"); ("vartheta", "ϑ");
   ("iota", "ι"); ("kappa", "κ"); ("varkappa", "ϰ"); ("lambda", "λ"); ("mu", "μ");
   ("nu", "ν"); ("xi", "ξ"); ("varpi", "ϖ"); ("rho", "ρ"); ("varrho", "ϱ");
   ("sigma", "σ"); ("varsigma", "ς"); ("tau", "τ"); ("upsilon", "υ"); ("phi", "φ");
   ("varphi", "ϕ"); ("chi", "χ"); ("psi", "ψ"); ("omega", "ω");
   ("Gamma", "Γ"); ("Delta", "Δ"); ("Theta", "Θ"); ("Lambda", "Λ"); ("Xi", "Ξ");
   ("Pi", "Π"); ("Sigma", "Σ"); ("Upsilon", "Υ"); ("Phi", "Φ"); ("Psi", "Ψ");
   ("Omega", "Ω")].

(** [d.get(key)] on a dict given by its items. *)
Definition dict_get (d : list (string * string)) (key : string) : option string :=
  option_map snd (List.find (fun kv => String.eqb key (fst kv)) d).

Definition _get_greek_letter_text (name : string) : Py string :=
  let symbol := match dict_get _greek_letters name with Some s => s | None => name end in
  let choices := [name; symbol] in
  let weights := [0.8; 0.2]%float in
  picked <- random.choices choices weights ;;
  getitem picked 0.

(** [node.nodeargd and node.nodeargd.argnlist] *)
Definition has_arguments (node : MacroNode A) : bool :=
  match nodeargd node with
  | Some args => negb (Nat.eqb (List.length (argnlist args)) 0)
  | None => false
  end.

(** [node.nodeargd.argnlist[0]] *)
Definition first_argument (node : MacroNode A) : Py (option A) :=
  match nodeargd node with
  | Some args => getitem (argnlist args) 0
  | None => raise AttributeError
  end.

(** Modelled from the spec: [super().macro_node_to_text(node)], the method
    of the parent class [LatexNodes2Text], which is not part of format.py.
    The spec gives a construct without an entry of its own the default
    handler, which renders the bare name as literal text. *)
Definition super_macro_node_to_text (node : MacroNode A) : Py string :=
  ret (macroname node).

Definition macro_node_to_text (node : MacroNode A) : Py string :=
  let name := macroname node in
  if String.eqb name "_" && has_arguments node then
    arg0 <- first_argument node ;;
    subscript_content <- nodelist_to_text [arg0] ;;
    ret ("_(" ++ subscript_content ++ ")")
  else if String.eqb name "sqrt" then _custom_sqrt_handler node
  else if String.eqb name "frac" || String.eqb name "dfrac" || String.eqb name "tfrac"
    then _custom_frac_handler node
  else if String.eqb name "binom" then _custom_binom_handler node
  else if String.eqb name "mathrm" then _custom_mathrm_handler node
  else if String.eqb name "boxed" then _custom_boxed_handler node
  else if is_in name ["text"; "textbf"; "textit"] then
    if has_arguments node
    then arg0 <- first_argument node ;; nodelist_to_text [arg0]
    else ret ""
  else if String.eqb name "pi" then _custom_pi_handler node
  else if String.eqb name "infty" then _custom_infty_handler node
  else if match dict_get _greek_letters name with Some _ => true | None => false end
    then _get_greek_letter_text name
  else if String.eqb name "times" then ret "*"
  else if String.eqb name "cdot" then ret "*"
  else if String.eqb name "pm" then ret "+/-"
  else if String.eqb name "mp" then ret "-/+"
  else if String.eqb name "approx" then ret "~"
  else if String.eqb name "sim" then ret "~="
  else if String.eqb name "equiv" then ret "==="
  else if String.eqb name "subseteq" then ret "subset="
  else if String.eqb name "iff" then ret "<=>"
  else if String.eqb name "mapsto" then ret "|->"
  else if is_in name ["ldots"; "cdots"; "dots"] then ret "..."
  else if String.eqb name "leq" then ret "<="
  else if String.eqb name "geq" then ret ">="
  else if String.eqb name "neq" then ret "!="
  else if String.eqb name "div" then ret "÷"
  else if String.eqb name "subset" then ret "⊂"
  else if String.eqb name "in" then ret "∈"
  else if String.eqb name "cup" then ret "∪"
  else if String.eqb name "cap" then ret "∩"
  else if String.eqb name "emptyset" then ret "∅"
  else if String.eqb name "to" then ret "→"
  else if String.eqb name "quad" then ret "    "
  else if String.eqb name "qquad" then ret "        "
  else if String.eqb name "\" then ret newline
  else if is_in name ["sum"; "int"; "lim"; "prod"; "nabla"; "iint"; "iiint"; "oint"]
    then ret ("\" ++ name)
  else if String.eqb name "mathbb" then
    if has_arguments node
    then arg0 <- first_argument node ;; nodelist_to_text [arg0]
    else ret ""
  else if is_in name ["left"; "right"] then ret ""
  else if is_in name ["sin"; "cos"; "tan"; "log"; "ln"] then ret name
  else if String.eqb name "{" then ret "{"
  else if String.eqb name "}" then ret "}"
  else if String.eqb name "n" then ret newline
  else super_macro_node_to_text node.

End Handlers.

(** ** The node tree and the tree walk *)

(** Modelled from the spec: the node classes of the parsing library, which
    are not part of format.py. The constructors follow section 3 of the spec;
    a construct carries the macro node that format.py reads ([macroname],
    [nodeargd], [argnlist]). *)
Inductive Node : Type :=
| Text (content : string)
| Construct (node : MacroNode Node)
| Group (open_delim close_delim : string) (children : list Node)
| Special (symbol : string)
| Comment (text : string).

(** [macro "frac" [Some n; Some d]]: a macro node with the given arguments. *)
Definition macro {A} (name : string) (args : list (option A)) : MacroNode A :=
  {| macroname := name; nodeargd := Some {| argnlist := args |} |}.

Definition MacroNode_map {A B} (f : A -> B) (node : MacroNode A) : MacroNode B :=
  {| macroname := macroname node;
     nodeargd :=
       option_map
         (fun args => {| argnlist := List.map (option_map f) (argnlist args) |})
         (nodeargd node) |}.

(** Modelled from the spec: the joining step of the walk. The renderings of
    a list of nodes are run in document order and joined without separator;
    an absent node contributes no text. *)
Fixpoint concat_texts (renderings : list (option (Py string))) : Py string :=
  match renderings with
  | [] => ret ""
  | r :: rest =>
      s <- match r with Some m => m | None => ret "" end ;;
      t <- concat_texts rest ;;
      ret (s ++ t)
  end.

(** [_get_custom_specials]: the text of the specials of format.py. *)
Definition _get_custom_specials : list (string * string) :=
  [("\langle", "<"); ("\rangle", ">")].

Section Renderer.

Variable builtin_float : string -> outcome float.
Variable builtin_str : float -> string.

(** Modelled from the spec: the tree walk of the parent class
    [LatexNodes2Text] ([node_to_text], [nodelist_to_text]), which is not part
    of format.py. Following section 4.2 of the spec: text is appended
    verbatim, a comment appends nothing, a special is looked up in the
    substitution table and appended verbatim when it has no entry, a group
    emits its rendered children, and a construct goes to
    [macro_node_to_text]; the outputs are joined in document order.
    The depth guard of section 4.2 is not part of this walk: the spec names
    no bound, and format.py counts no depth. The walk stands for the
    rendering of a tree within the bound, and nothing is stated here of
    trees beyond it.
    A handler gets each argument node together with the walk to run on it:
    [l2tobj.nodelist_to_text([arg])] runs the rendering held in the slot.
    Lemma [nodelist_to_text_Construct] below states the same without the
    slots: the walk calls [macro_node_to_text] on the node, with itself as
    [l2tobj]. *)
Fixpoint node_to_text (node : Node) : Py string :=
  match node with
  | Text content => ret content
  | Comment _ => ret ""
  | Special symbol =>
      ret match dict_get _get_custom_specials symbol with
          | Some text => text
          | None => symbol
          end
  | Group _ _ children =>
      concat_texts (List.map (fun child => Some (node_to_text child)) children)
  | Construct m =>
      macro_node_to_text concat_texts builtin_float builtin_str
        (MacroNode_map node_to_text m)
  end.

(** Modelled from the spec: [nodelist_to_text] of the parent class, on a list
    whose entries may be absent, as the handlers call it on
    [[node.nodeargd.argnlist[i]]]. *)
Definition nodelist_to_text (nodelist : list (option Node)) : Py string :=
  concat_texts (List.map (option_map node_to_text) nodelist).

End Renderer.

(** ** The builtins [float] and [str]

    A model of the two builtins the root handler calls, to run the handlers on
    examples. The handlers themselves take the builtins as parameters. *)

Module Builtins.

(** Comparison of the positive rationals [a / b] and [c / d]. *)
Definition Qcompare (a b c d : Z) : comparison := (a * d ?= c * b).

Definition pow10 (k : Z) : Z := 10 ^ k.

(** [x * 10^q] as a fraction. *)
Definition scale10 (n q : Z) : Z * Z :=
  if 0 <=? q then (n * pow10 q, 1) else (n, pow10 (- q)).

Definition scale2 (n e : Z) : Z * Z :=
  if 0 <=? e then (n * 2 ^ e, 1) else (n, 2 ^ (- e)).

(** The integer [t] with [10^t <= n/d < 10^(t+1)], for [n/d > 0]. *)
Definition floor_log10 (n d : Z) : Z :=
  let t0 := (Z.log2 n - Z.log2 d) * 30103 / 100000 in
  let below t := let '(a, b) := scale10 1 t in
                 match Qcompare n d a b with Lt => true | _ => false end in
  if below (t0 - 1) then t0 - 2
  else if below t0 then t0 - 1
  else if below (t0 + 1) then t0
  else if below (t0 + 2) then t0 + 1
  else t0 + 2.

Definition string_of_Z (z : Z) : string := NilZero.string_of_int (Z.to_int z).

Fixpoint zeros (n : nat) : string :=
  match n with O => "" | S n' => "0" ++ zeros n' end.

Fixpoint strip_zeros (fuel : nat) (n q : Z) : Z * Z :=
  match fuel with
  | O => (n, q)
  | S fuel' => if (n mod 10 =? 0) && negb (n =? 0) then strip_zeros fuel' (n / 10) (q + 1) else (n, q)
  end.

(** The shortest decimal [n * 10^q] that rounds to the float [m * 2^e]:
    the first number of digits [p] at which one of the two [p]-digit
    neighbours of the float lies in its rounding interval. *)
Fixpoint shortest (fuel : nat) (p : Z) (m e t : Z) : Z * Z :=
  let '(xn, xd) := scale2 (4 * m) (e - 2) in
  let low := if (m =? 2 ^ 52) && (-1074 <? e) then 4 * m - 1 else 4 * m - 2 in
  let '(ln, ld) := scale2 low (e - 2) in
  let '(hn, hd) := scale2 (4 * m + 2) (e - 2) in
  let q := t - p + 1 in
  let '(sn, sd) := scale10 1 q in
  let n_lo := (xn * sd) / (xd * sn) in
  let inside n :=
    let '(cn, cd) := scale10 n q in
    match Qcompare ln ld cn cd, Qcompare cn cd hn hd with
    | Lt, Lt => true
    | Eq, Lt | Lt, Eq | Eq, Eq => Z.even m
    | _, _ => false
    end in
  (* twice the float against the sum of the two candidates *)
  let nearer_lo :=
    let '(cn, cd) := scale10 (2 * n_lo + 1) q in
    match Qcompare (2 * xn) xd cn cd with
    | Lt => true | Eq => Z.even n_lo | Gt => false
    end in
  let pick :=
    match inside n_lo, inside (n_lo + 1) with
    | true, true => Some (if nearer_lo then n_lo else n_lo + 1)
    | true, false => Some n_lo
    | false, true => Some (n_lo + 1)
    | false, false => None
    end in
  match pick, fuel with
  | Some n, _ => (n, q)
  | None, S fuel' => shortest fuel' (p + 1) m e t
  | None, O => (n_lo, q)
  end.

Definition digits_text (n q : Z) : string :=
  let ds := string_of_Z n in
  let len := Z.of_nat (String.length ds) in
  let decpt := len + q in
  if (decpt <=? -4) || (16 <? decpt) then
    let e10 := decpt - 1 in
    let mant := String.substring 0 1 ds
                ++ (if 1 <? len then "." ++ Str.drop 1 ds else "") in
    let ex := string_of_Z (Z.abs e10) in
    mant ++ "e" ++ (if e10 <? 0 then "-" else "+")
         ++ (if (String.length ex <? 2)%nat then "0" ++ ex else ex)
  else if decpt <=? 0 then "0." ++ zeros (Z.to_nat (- decpt)) ++ ds
  else if decpt <? len then
    String.substring 0 (Z.to_nat decpt) ds ++ "." ++ Str.drop (Z.to_nat decpt) ds
  else ds ++ zeros (Z.to_nat (decpt - len)) ++ ".0".

(** [str(x)] of a float: the shortest text that reads back as [x]. *)
Definition str (x : float) : string :=
  match Prim2SF x with
  | S754_zero s => if s then "-0.0" else "0.0"
  | S754_infinity s => if s then "-inf" else "inf"
  | S754_nan => "nan"
  | S754_finite s m e =>
      let m := Zpos m in
      let '(xn, xd) := scale2 m e in
      let '(n, q) := shortest 17 1 m e (floor_log10 xn xd) in
      let '(n, q) := strip_zeros 20 n q in
      (if s then "-" else "") ++ digits_text n q
  end.

(** The float nearest to [n / d] (ties to even), for [n > 0] and [d > 0]. *)
Definition nearest (n d : Z) : float :=
  let l0 := Z.log2 n - Z.log2 d in
  let '(a, b) := scale2 1 l0 in
  let l := match Qcompare n d a b with Lt => l0 - 1 | _ => l0 end in
  let e := Z.max (l - 52) (-1074) in
  let '(sn, sd) := scale2 1 e in
  let num := n * sd in
  let den := d * sn in
  let qt := num / den in
  let r := num mod den in
  let qt := match 2 * r ?= den with
            | Lt => qt
            | Gt => qt + 1
            | Eq => if Z.even qt then qt else qt + 1
            end in
  if 971 <? e then infinity
  else Z.ldexp (PrimFloat.of_uint63 (Uint63.of_Z qt)) e.

Definition is_digit (c : ascii) : bool :=
  let n := nat_of_ascii c in ((48 <=? n) && (n <=? 57))%nat.

(** The digits at the head of [s] (single underscores between digits are
    passed over), their value appended to [acc], their number, and what
    follows them. *)
Fixpoint read_digits (s : string) (acc : Z) (count : nat) : Z * nat * string :=
  match s with
  | String c s' =>
      if is_digit c
      then read_digits s' (10 * acc + Z.of_nat (nat_of_ascii c - 48)) (S count)
      else
        match s' with
        | String c' _ =>
            if Ascii.eqb c "_" && negb (Nat.eqb count 0) && is_digit c'
            then read_digits s' acc count
            else (acc, count, s)
        | EmptyString => (acc, count, s)
        end
  | EmptyString => (acc, count, s)
  end.

Definition lower (s : string) : string :=
  string_of_list_ascii
    (List.map (fun c => let n := nat_of_ascii c in
                        if ((65 <=? n) && (n <=? 90))%nat then ascii_of_nat (n + 32) else c)
              (list_ascii_of_string s)).

Definition read_sign (s : string) : bool * string :=
  match s with
  | String "-" s' => (true, s')
  | String "+" s' => (false, s')
  | _ => (false, s)
  end.

(** The blanks that [float] passes over at the two ends of its text: the
    ASCII blanks U+0009..U+000D and U+0020 and the blanks beyond ASCII.
    Unlike [str.strip], [float] keeps U+001C..U+001F, and raises on them. *)
Definition blanks : list string :=
  List.filter
    (fun w => negb (is_in w (List.map Str.bytes [[28]; [29]; [30]; [31]]%nat)))
    Str.whitespace.

Definition strip_blanks (s : string) : string :=
  let s := Str.lstrip_chars blanks (String.length s) s in
  Str.rev (Str.lstrip_chars (List.map Str.rev blanks) (String.length s) (Str.rev s)).

(** [float(s)]: blanks around an optional sign and [inf], [infinity], [nan]
    or a decimal number with optional fraction and exponent, rounded to the
    nearest float; [ValueError] otherwise. The digits read are the ASCII
    digits: Python also reads the decimal digits of other scripts, on which
    this model raises [ValueError]. *)
Definition float (s : string) : outcome PrimFloat.float :=
  let '(neg, body) := read_sign (strip_blanks s) in
  let signed x := Return (if neg then (- x)%float else x) in
  if is_in (lower body) ["inf"; "infinity"] then signed infinity
  else if String.eqb (lower body) "nan" then Return nan
  else
    let '(int_part, n_int, rest) := read_digits body 0 0 in
    let '(mantissa, n_frac, rest) :=
      match rest with
      | String "." rest' => read_digits rest' int_part 0
      | _ => (int_part, O, rest)
      end in
    if Nat.eqb (n_int + n_frac) 0 then Raise ValueError else
    let exponent :=
      match rest with
      | EmptyString => Some 0
      | String c rest' =>
          if is_in (String c "") ["e"; "E"] then
            let '(eneg, digits) := read_sign rest' in
            match read_digits digits 0 0 with
            | (_, O, _) => None
            | (v, _, EmptyString) => Some (if eneg then - v else v)
            | _ => None
            end
          else None
      end in
    match exponent with
    | None => Raise ValueError
    | Some ex =>
        if mantissa =? 0 then signed 0%float
        else let '(n, d) := scale10 mantissa (ex - Z.of_nat n_frac) in signed (nearest n d)
    end.

End Builtins.

(** * The vocabulary of the statements *)

(** Texts as argument nodes: each renders to itself. *)
Definition literal_text (nodelist : list (option string)) : Py string :=
  concat_texts (List.map (option_map ret) nodelist).

(** A generator state that delivers the numbers of [l], then zeros. *)
Definition tape (l : list Z) : random_state := fun n => List.nth n l 0.

(** [node] has no parsed arguments, or fewer than [n] of them. *)
Definition holds_fewer_than {A} (node : MacroNode A) (n : nat) : Prop :=
  match nodeargd node with
  | None => True
  | Some args => (List.length (argnlist args) < n)%nat
  end.

(** The texts a square root of [x] can take when the exponent is written
    with the index text [t]. *)
Definition root_of_two_texts (t : string) : list (outcome string) :=
  List.map Return
    ["sqrt(x)"; "x^0.5"; "x**0.5"; "x^(1/" ++ t ++ ")"; "x**(1/" ++ t ++ ")"].

(** The names [macro_node_to_text] treats itself, in the order of its
    tests. *)
Definition handled_names : list string :=
  List.app
    ["_"; "sqrt"; "frac"; "dfrac"; "tfrac"; "binom"; "mathrm"; "boxed";
     "text"; "textbf"; "textit"; "pi"; "infty"]
    (List.app
       (List.map fst _greek_letters)
       ["times"; "cdot"; "pm"; "mp"; "approx"; "sim"; "equiv"; "subseteq";
        "iff"; "mapsto"; "ldots"; "cdots"; "dots"; "leq"; "geq"; "neq";
        "div"; "subset"; "in"; "cup"; "cap"; "emptyset"; "to"; "quad";
        "qquad"; "\"; "sum"; "int"; "lim"; "prod"; "nabla"; "iint"; "iiint";
        "oint"; "mathbb"; "left"; "right"; "sin"; "cos"; "tan"; "log"; "ln";
        "{"; "}"; "n"]).

(** The macros without arguments that [macro_node_to_text] replaces by a
    fixed text. *)
Definition symbol_table : list (string * string) :=
  [("times", "*"); ("cdot", "*"); ("pm", "+/-"); ("mp", "-/+"); ("approx", "~");
   ("sim", "~="); ("equiv", "==="); ("subseteq", "subset="); ("iff", "<=>");
   ("mapsto", "|->"); ("ldots", "..."); ("cdots", "..."); ("dots", "...");
   ("leq", "<="); ("geq", ">="); ("neq", "!="); ("div", "÷"); ("subset", "⊂");
   ("in", "∈"); ("cup", "∪"); ("cap", "∩"); ("emptyset", "∅"); ("to", "→");
   ("quad", "    "); ("qquad", "        "); ("\", newline);
   ("sum", "\sum"); ("int", "\int"); ("lim", "\lim"); ("prod", "\prod");
   ("nabla", "\nabla"); ("iint", "\iint"); ("iiint", "\iiint");
   ("oint", "\oint"); ("left", ""); ("right", "");
   ("sin", "sin"); ("cos", "cos"); ("tan", "tan"); ("log", "log"); ("ln", "ln");
   ("{", "{"); ("}", "}"); ("n", newline)].

(** [str(x).split('.')[1] if '.' in str(x) else ""], on the text [s] of
    [str(x)]. *)
Definition decimal_part (s : string) : string :=
  if Str.contains "." s then List.nth 1 (Str.split "." s) "" else "".

(** Two generator states that deliver the same numbers. *)
Definition same_draws (g g' : random_state) : Prop := forall n, g n = g' n.

(** From states delivering the same numbers, [m] ends with the same value or
    exception and leaves states delivering the same numbers. *)
Definition replayable {X} (m : Py X) : Prop :=
  forall g g', same_draws g g' ->
    fst (m g) = fst (m g') /\ same_draws (snd (m g)) (snd (m g')).

(** [m] returns a value from every generator state: it raises nothing. *)
Definition succeeds {X} (m : Py X) : Prop :=
  forall g, exists x g', m g = (Return x, g').

(** Whatever [m] raises is one of [excs]. *)
Definition raises_only {X} (excs : list exception) (m : Py X) : Prop :=
  forall g,
    match fst (m g) with
    | Return _ => True
    | Raise e => List.existsb (exception_eqb e) excs = true
    end.

(** The arguments of a macro node, none when it has no parsed arguments. *)
Definition arguments {A} (node : MacroNode A) : list (option A) :=
  match nodeargd node with
  | Some args => argnlist args
  | None => []
  end.

(** [\boxed{x}], where [construct] makes a node of a macro. *)
Definition boxed_in {A} (construct : MacroNode A -> A) (x : A) : A :=
  construct (macro "boxed" [Some x]).

Definition boxed : Node -> Node := boxed_in Construct.

Definition brackets (text : string) : string := "[" ++ text ++ "]".

(** A group in braces, as the parser makes of a mandatory argument. *)
Definition braces (children : list Node) : Node := Group "{" "}" children.

(** ** The tables and the handler that [macro_node_to_text] does not use *)

(** [_get_custom_macro_specs]: each [std_macro(name, args)] as the name and
    its argument specification [args], which holds one character per
    argument of the macro. *)
Definition _get_custom_macro_specs : list (string * string) :=
  List.app
    [("sqrt", "[{");
     ("frac", "{{"); ("dfrac", "{{"); ("tfrac", "{{");
     ("binom", "{{");
     ("mathrm", "{"); ("log", ""); ("ln", ""); ("sin", ""); ("cos", "");
     ("tan", ""); ("lim", ""); ("text", "{"); ("textbf", "{"); ("textit", "{");
     ("boxed", "{")]
    (List.map (fun name => (name, ""))
       ["alpha"; "beta"; "gamma"; "delta"; "epsilon"; "varepsilon"; "zeta"; "eta";
        "theta"; "vartheta"; "iota"; "kappa"; "varkappa"; "lambda"; "mu"; "nu";
        "xi"; "pi"; "varpi"; "rho"; "varrho"; "sigma"; "varsigma"; "tau";
        "upsilon"; "phi"; "varphi"; "chi"; "psi"; "omega";
        "Gamma"; "Delta"; "Theta"; "Lambda"; "Xi"; "Pi"; "Sigma";
        "Upsilon"; "Phi"; "Psi"; "Omega";
        "infty"; "times"; "cdot"; "pm"; "mp"; "approx"; "sim"; "equiv";
        "subseteq"; "iff"; "mapsto"; "ldots"; "cdots"; "dots";
        "leq"; "geq"; "neq"; "div"; "subset"; "in"; "cup"; "cap"; "emptyset";
        "to"; "quad"; "qquad"; "sum"; "int"; "lim"; "prod"; "nabla";
        "iint"; "iiint"; "oint"; "mathbb"; "left"; "right"; "\";
        "{"; "}";
        "n"]).

(** [_get_custom_text_specs]: each [MacroTextSpec(name, simplify_repl=text)]
    as the name and the replacement text. *)
Definition _get_custom_text_specs : list (string * string) :=
  [("times", "*"); ("cdot", "*");
   ("pm", "+/-"); ("mp", "-/+");
   ("approx", "~"); ("sim", "~=");
   ("equiv", "===");
   ("subseteq", "subset=");
   ("iff", "<=>"); ("mapsto", "|->");
   ("ldots", "..."); ("cdots", "..."); ("dots", "...")].

(** [_custom_greek_handler(name, symbol)]: the handler it returns. *)
Definition _custom_greek_handler {A} (name symbol : string)
  : MacroNode A -> Py string :=
  fun node =>
    let choices := [name; symbol] in
    let weights := [0.8; 0.2]%float in
    picked <- random.choices choices weights ;;
    getitem picked 0.

(** [node] has parsed arguments, one per character of the argument
    specification that [_get_custom_macro_specs] gives for its name. *)
Definition follows_its_spec {A} (node : MacroNode A) : Prop :=
  exists argspec args,
    In (macroname node, argspec) _get_custom_macro_specs
    /\ nodeargd node = Some args
    /\ List.length (argnlist args) = String.length argspec.

(** The float that [random.random()] returns from the state [g]. *)
Definition uniform (g : random_state) : float :=
  match fst (random.random g) with
  | Return u => u
  | Raise _ => 0%float
  end.

(** A rendering call of format.py passes the converter, that is the walk it
    calls back and the builtins, and the node; no function of format.py
    takes a random source. The state a [Py] computation starts from is the
    state of the generator of the [random] module, which belongs to the
    process. [m] is decided by the call when its outcome is the same from
    every state of that generator, as it would be if the random source came
    with the call. *)
Definition decided_by_the_call {X} (m : Py X) : Prop :=
  forall g g', fst (m g) = fst (m g').

(** The names whose branch of [macro_node_to_text] reaches a call of the
    [random] module. *)
Definition stochastic_names : list string :=
  List.app ["sqrt"; "pi"; "infty"] (List.map fst _greek_letters).

(** The characters of a text. *)
Definition chars (s : string) : list ascii := list_ascii_of_string s.

(** [c] occurs in none of the texts of [ws]. *)
Definition outside (c : ascii) (ws : list string) : bool :=
  List.forallb (fun w => negb (List.existsb (Ascii.eqb c) (chars w))) ws.

(** * Properties *)

(** ** Running a computation step by step *)

Lemma bind_Return {A B} (m : Py A) (k : A -> Py B) g a g' :
  m g = (Return a, g') -> bind m k g = k a g'.
Proof. intros H. unfold bind. now rewrite H. Qed.

Lemma bind_Raise {A B} (m : Py A) (k : A -> Py B) g e g' :
  m g = (Raise e, g') -> bind m k g = (Raise e, g').
Proof. intros H. unfold bind. now rewrite H. Qed.

Lemma bind_ret {A B} (a : A) (k : A -> Py B) g : bind (ret a) k g = k a g.
Proof. reflexivity. Qed.

Lemma randint_0_1 g :
  random.randint 0 1 g = (Return (g O mod 2), advance g).
Proof. reflexivity. Qed.

Lemma append_assoc (a b c : string) : (a ++ b) ++ c = a ++ b ++ c.
Proof. induction a as [| x a IH]; cbn; [reflexivity | now rewrite IH]. Qed.

Lemma append_empty_r (a : string) : a ++ "" = a.
Proof. induction a as [| x a IH]; cbn; [reflexivity | now rewrite IH]. Qed.

Lemma split_from_nonempty sep skip cur s : Str.split_from sep skip cur s <> [].
Proof.
  revert skip cur.
  induction s as [| c s IH]; intros skip cur; cbn [Str.split_from]; [discriminate |].
  destruct skip; [| apply IH].
  destruct (String.prefix sep (String c s)); [discriminate | apply IH].
Qed.

(** A text that contains a dot splits into at least two fields. *)
Lemma split_dot s :
  Str.contains "." s = true -> (1 < List.length (Str.split "." s))%nat.
Proof.
  unfold Str.split. generalize (@nil ascii) as cur.
  induction s as [| c s IH]; intros cur H; [discriminate |].
  cbn [Str.contains] in H. cbn [Str.split_from].
  destruct (String.prefix "." (String c s)).
  - cbn [List.length String.length Nat.sub].
    pose proof (split_from_nonempty "." 0 [] s) as Hne.
    destruct (Str.split_from "." 0 [] s); [contradiction | cbn; lia].
  - now apply IH.
Qed.

#[local] Arguments is_complex : simpl never.
#[local] Arguments needs_parentheses : simpl never.
#[local] Arguments power_text : simpl never.
#[local] Arguments literal_fraction : simpl never.
#[local] Arguments String.append : simpl never.

(** [run H] performs the call whose result [H] gives. *)
Ltac run H := rewrite (bind_Return _ _ _ _ _ H); cbn.

(** The text of [power_text]: the content, in parentheses when it needs
    them, then [^] or [**], then the exponent. *)
Lemma power_text_parts content exp_value exp_rng :
  power_text content exp_value exp_rng =
    (if needs_parentheses content then "(" ++ content ++ ")" else content)
      ++ (if exp_rng =? 0 then "^" else "**") ++ exp_value.
Proof.
  unfold power_text.
  destruct (needs_parentheses content), (exp_rng =? 0);
    rewrite ?append_assoc; cbn; rewrite ?append_assoc; reflexivity.
Qed.




(** ** The calls of the [random] module *)

Lemma succeeds_random : succeeds random.random.
Proof. intros g. now eexists _, _. Qed.

Lemma succeeds_getitem {X} (l : list X) i :
  (i < List.length l)%nat -> succeeds (getitem l i).
Proof.
  intros Hi g. unfold getitem.
  destruct (List.nth_error l i) as [x |] eqn:E; [now exists x, g |].
  apply List.nth_error_None in E. lia.
Qed.

Lemma bisect_le a x hi : (random.bisect a x hi <= hi)%nat.
Proof.
  revert a. induction hi as [| hi IH]; intros [| y a]; cbn; try lia.
  destruct (x <? y)%float; [lia |]. specialize (IH a). lia.
Qed.

Lemma length_accumulate acc weights :
  List.length (random.accumulate acc weights) = List.length weights.
Proof.
  revert acc. induction weights as [| w ws IH]; intros acc; cbn;
    [reflexivity | now rewrite IH].
Qed.

(** [random.choices(population, weights)[0]] is one of the population, when
    the weights are as many as the choices and add up to more than zero. *)
Lemma choices_first {X} (population : list X) weights total g :
  List.length weights = List.length population ->
  List.last (List.map Some (random.accumulate None weights)) None = Some total ->
  (total + 0 <=? 0)%float = false ->
  exists x g',
    (picked <- random.choices population weights ;; getitem picked 0) g
    = (Return x, g')
    /\ In x population.
Proof.
  intros Hlen Hlast Htotal. unfold random.choices.
  rewrite length_accumulate, Hlen, Nat.eqb_refl, Hlast, Htotal. cbn [negb].
  assert (Hpop : (0 < List.length population)%nat).
  { destruct population, weights; cbn in *; try discriminate; lia. }
  destruct (succeeds_random g) as (u & g' & Eu).
  assert (Hitem : succeeds
            (getitem population
               (random.bisect (random.accumulate None weights)
                  (u * (total + 0))%float (List.length population - 1)))).
  { apply succeeds_getitem.
    pose proof (bisect_le (random.accumulate None weights)
                  (u * (total + 0))%float (List.length population - 1)).
    lia. }
  destruct (Hitem g') as (x & g'' & Ex).
  exists x, g''. split.
  - rewrite (bind_Return _ _ g [x] g''); [reflexivity |].
    rewrite (bind_Return _ _ _ _ _ Eu). now rewrite (bind_Return _ _ _ _ _ Ex).
  - unfold getitem in Ex.
    destruct (List.nth_error population _) as [y |] eqn:E; [| discriminate].
    injection Ex as -> _. eapply List.nth_error_In, E.
Qed.

Lemma choices_first_in {X} (population : list X) weights total g :
  List.length weights = List.length population ->
  List.last (List.map Some (random.accumulate None weights)) None = Some total ->
  (total + 0 <=? 0)%float = false ->
  exists x,
    fst ((picked <- random.choices population weights ;; getitem picked 0) g)
    = Return x
    /\ In x population.
Proof.
  intros Hlen Hlast Htotal.
  destruct (choices_first population weights total g Hlen Hlast Htotal)
    as (x & g' & E & Hin).
  exists x. now rewrite E.
Qed.

(** ** The handlers, over any argument nodes and any tree walk *)

Section HandlerProperties.

Context {A : Type}.
Variable nodelist_to_text : list (option A) -> Py string.
Variable builtin_float : string -> outcome float.
Variable builtin_str : float -> string.

#[local] Abbreviation render :=
  (macro_node_to_text nodelist_to_text builtin_float builtin_str).
#[local] Abbreviation sqrt_handler :=
  (_custom_sqrt_handler nodelist_to_text builtin_float builtin_str).

(** *** Fractions *)

Lemma frac_handler_text (name : string) (arg0 arg1 : option A) rest
      numerator denominator g g1 g2 :
  nodelist_to_text [arg0] g = (Return numerator, g1) ->
  nodelist_to_text [arg1] g1 = (Return denominator, g2) ->
  _custom_frac_handler nodelist_to_text (macro name (arg0 :: arg1 :: rest)) g =
    (Return (if is_complex numerator || is_complex denominator
             then "(" ++ numerator ++ ")/(" ++ denominator ++ ")"
             else numerator ++ "/" ++ denominator), g2).
Proof.
  intros H0 H1. unfold _custom_frac_handler. cbn.
  run H0. run H1.
  now destruct (is_complex numerator || is_complex denominator).
Qed.

Lemma frac_dispatch (node : MacroNode A) :
  is_in (macroname node) ["frac"; "dfrac"; "tfrac"] = true ->
  render node = _custom_frac_handler nodelist_to_text node.
Proof.
  intros Hin. cbn in Hin. rewrite orb_false_r in Hin.
  apply orb_true_iff in Hin as [H | H]; [| apply orb_true_iff in H as [H | H]];
    apply String.eqb_eq in H; unfold macro_node_to_text; rewrite H;
    reflexivity.
Qed.

Lemma frac_text (name : string) (arg0 arg1 : option A) rest
      numerator denominator g g1 g2 :
  is_in name ["frac"; "dfrac"; "tfrac"] = true ->
  nodelist_to_text [arg0] g = (Return numerator, g1) ->
  nodelist_to_text [arg1] g1 = (Return denominator, g2) ->
  render (macro name (arg0 :: arg1 :: rest)) g =
    (Return (if is_complex numerator || is_complex denominator
             then "(" ++ numerator ++ ")/(" ++ denominator ++ ")"
             else numerator ++ "/" ++ denominator), g2).
Proof.
  intros Hin H0 H1. rewrite frac_dispatch by easy.
  eapply frac_handler_text; eassumption.
Qed.

(** C1 (as amended). A fraction construct ([frac], [dfrac], [tfrac]) with
    two arguments renders numerator and denominator in turn; if the trimmed
    text of either side contains one of [+ - * / ^] or a space, both sides
    are wrapped in parentheses, otherwise neither is; the sides are joined
    with [/]. So [a] over [b] gives [a/b], and [a+1] over [b] gives
    [(a+1)/(b)]. *)
Theorem frac_wraps_both_sides_or_none :
  (forall name (arg0 arg1 : option A) rest numerator denominator g g1 g2,
      is_in name ["frac"; "dfrac"; "tfrac"] = true ->
      nodelist_to_text [arg0] g = (Return numerator, g1) ->
      nodelist_to_text [arg1] g1 = (Return denominator, g2) ->
      render (macro name (arg0 :: arg1 :: rest)) g =
        (Return (if is_complex numerator || is_complex denominator
                 then "(" ++ numerator ++ ")/(" ++ denominator ++ ")"
                 else numerator ++ "/" ++ denominator), g2))
  /\ (forall (arg0 arg1 : option A) g g1 g2,
         nodelist_to_text [arg0] g = (Return "a", g1) ->
         nodelist_to_text [arg1] g1 = (Return "b", g2) ->
         render (macro "frac" [arg0; arg1]) g = (Return "a/b", g2))
  /\ (forall (arg0 arg1 : option A) g g1 g2,
         nodelist_to_text [arg0] g = (Return "a+1", g1) ->
         nodelist_to_text [arg1] g1 = (Return "b", g2) ->
         render (macro "frac" [arg0; arg1]) g = (Return "(a+1)/(b)", g2)).
Proof.
  split; [exact frac_text | split]; intros arg0 arg1 g g1 g2 H0 H1.
  - now rewrite (frac_text "frac" arg0 arg1 [] "a" "b" g g1 g2).
  - now rewrite (frac_text "frac" arg0 arg1 [] "a+1" "b" g g1 g2).
Qed.

(** *** Binomial coefficients *)

(** C8. A binomial construct whose two arguments render to the texts [n]
    and [k] renders to [C(n,k)]; the handler draws nothing from the
    generator, so the text is the same whatever the generator delivers.
    In particular the texts [n] and [k] give [C(n,k)]. *)
Theorem binom_text :
  forall (arg0 arg1 : option A) rest n k g g1 g2,
    nodelist_to_text [arg0] g = (Return n, g1) ->
    nodelist_to_text [arg1] g1 = (Return k, g2) ->
    render (macro "binom" (arg0 :: arg1 :: rest)) g =
      (Return ("C(" ++ n ++ "," ++ k ++ ")"), g2).
Proof.
  intros arg0 arg1 rest n k g g1 g2 H0 H1.
  change (render (macro "binom" (arg0 :: arg1 :: rest)))
    with (_custom_binom_handler nodelist_to_text (macro "binom" (arg0 :: arg1 :: rest))).
  unfold _custom_binom_handler. cbn. run H0. now run H1.
Qed.

(** *** Missing arguments *)

(** C9. On a node without parsed arguments, or with fewer arguments than
    the handler reads (two for [frac] and [binom], one for [sqrt], [mathrm]
    and [boxed]), each of the five handlers returns the empty text; it
    raises nothing and leaves the generator as it was. *)
Theorem handlers_empty_on_missing_arguments :
  forall (node : MacroNode A) g,
    (holds_fewer_than node 2 ->
       _custom_frac_handler nodelist_to_text node g = (Return "", g)
       /\ _custom_binom_handler nodelist_to_text node g = (Return "", g))
    /\ (holds_fewer_than node 1 ->
          sqrt_handler node g = (Return "", g)
          /\ _custom_mathrm_handler nodelist_to_text node g = (Return "", g)
          /\ _custom_boxed_handler nodelist_to_text node g = (Return "", g)).
Proof.
  intros [name [[args] |]] g; unfold holds_fewer_than; cbn; split; intros H;
    try (repeat split; reflexivity).
  - destruct args as [| arg0 [| arg1 args]]; cbn in H; try lia;
      split; reflexivity.
  - destruct args; [repeat split; reflexivity | cbn in H; lia].
Qed.

(** *** Roots *)

(** The handler on a node with a given index, up to the parsing of the
    index text: the first draw is [sqrt_rng], then the index and the
    radicand are rendered. *)
Lemma sqrt_handler_with_index (index : A) radicand rest t c g g1 g2 :
  nodelist_to_text [Some index] (advance g) = (Return t, g1) ->
  nodelist_to_text [radicand] g1 = (Return c, g2) ->
  render (macro "sqrt" (Some index :: radicand :: rest)) g =
    (radicand <- try_except
                   (r <- lift (builtin_float t) ;; ret (Some r))
                   [ValueError; TypeError] (ret None) ;;
     if match radicand with Some r => (r =? 2)%float | None => false end
        && (g O mod 2 =? 0)
     then ret ("sqrt(" ++ c ++ ")")
     else
       exp_rng <- random.randint 0 1 ;;
       exp_value <-
         match radicand with
         | Some r =>
           try_except
             (inv_radicand <- truediv 1 r ;;
              decimal_part <-
                (if Str.contains "." (builtin_str inv_radicand)
                 then getitem (Str.split "." (builtin_str inv_radicand)) 1
                 else ret "") ;;
              decimal_rng <- random.randint 0 1 ;;
              if (String.length decimal_part <=? 5)%nat && (decimal_rng =? 0)
              then ret (builtin_str inv_radicand)
              else ret (literal_fraction t))
             [ZeroDivisionError; ValueError]
             (ret (literal_fraction t))
         | None => ret (literal_fraction t)
         end ;;
       ret (power_text c exp_value exp_rng)) g2.
Proof.
  intros H0 H1.
  change (render (macro "sqrt" (Some index :: radicand :: rest)))
    with (sqrt_handler (macro "sqrt" (Some index :: radicand :: rest))).
  unfold _custom_sqrt_handler. cbn.
  run H0. now run H1.
Qed.

(** The handler on a node without index: [sqrt_rng] is drawn, the radicand
    is rendered, and [square_root] chooses the form. *)
Lemma sqrt_handler_without_index args (radicand : option A) c g g1 :
  args = [radicand] \/ (exists rest, args = None :: radicand :: rest) ->
  nodelist_to_text [radicand] (advance g) = (Return c, g1) ->
  render (macro "sqrt" args) g = square_root c (g O mod 2) g1.
Proof.
  intros Hargs H.
  change (render (macro "sqrt" args)) with (sqrt_handler (macro "sqrt" args)).
  unfold _custom_sqrt_handler.
  destruct Hargs as [-> | [rest ->]]; cbn; now run H.
Qed.

(** C5. When the index of a root is given and its text [t] is not a number
    ([float(t)] raises [ValueError]), the handler raises nothing: it returns
    the radicand text, in parentheses exactly when [needs_parentheses] holds
    of it (it contains one of [+ - * / ^] or a space), then [^] or [**] as
    the next draw decides, then the literal fraction [(1/t)] with the index
    text as it is. *)
Theorem sqrt_index_not_a_number :
  forall (index : A) radicand rest t c g g1 g2,
    nodelist_to_text [Some index] (advance g) = (Return t, g1) ->
    nodelist_to_text [radicand] g1 = (Return c, g2) ->
    builtin_float t = Raise ValueError ->
    render (macro "sqrt" (Some index :: radicand :: rest)) g =
      (Return ((if needs_parentheses c then "(" ++ c ++ ")" else c)
               ++ (if g2 O mod 2 =? 0 then "^" else "**")
               ++ "(1/" ++ t ++ ")"),
       advance g2).
Proof.
  intros index radicand rest t c g g1 g2 H0 H1 Hfloat.
  rewrite (sqrt_handler_with_index _ _ _ _ _ _ _ _ H0 H1).
  unfold try_except, bind, lift. rewrite Hfloat. cbn.
  now rewrite power_text_parts.
Qed.

(** C10. When the index text [t] of a root parses to zero (plus or minus),
    the handler raises nothing: the division [1.0 / 0.0] raises
    [ZeroDivisionError], which the handler catches, and the exponent is the
    literal fraction [(1/t)] with the index text as it is ([(1/0)] for the
    text [0]), after the radicand and [^] or [**] as the next draw decides. *)
Theorem sqrt_index_zero :
  forall (index : A) radicand rest t r c g g1 g2,
    nodelist_to_text [Some index] (advance g) = (Return t, g1) ->
    nodelist_to_text [radicand] g1 = (Return c, g2) ->
    builtin_float t = Return r ->
    r = 0%float \/ r = (-0)%float ->
    render (macro "sqrt" (Some index :: radicand :: rest)) g =
      (Return ((if needs_parentheses c then "(" ++ c ++ ")" else c)
               ++ (if g2 O mod 2 =? 0 then "^" else "**")
               ++ "(1/" ++ t ++ ")"),
       advance g2).
Proof.
  intros index radicand rest t r c g g1 g2 H0 H1 Hfloat Hzero.
  rewrite (sqrt_handler_with_index _ _ _ _ _ _ _ _ H0 H1).
  unfold try_except, bind, lift. rewrite Hfloat.
  destruct Hzero as [-> | ->]; cbn; now rewrite power_text_parts.
Qed.


Lemma power_text_x exp_value exp_rng :
  power_text "x" exp_value exp_rng =
    if exp_rng =? 0 then "x^" ++ exp_value else "x**" ++ exp_value.
Proof. reflexivity. Qed.

Lemma square_root_of_x sqrt_rng g :
  In (fst (square_root "x" sqrt_rng g)) (root_of_two_texts "2").
Proof.
  unfold square_root.
  destruct (sqrt_rng =? 0); [now left |].
  rewrite (bind_Return _ _ _ _ _ (randint_0_1 g)).
  rewrite (bind_Return _ _ _ _ _ (randint_0_1 (advance g))).
  cbn. rewrite power_text_x.
  destruct (advance g O mod 2 =? 0), (g O mod 2 =? 0); vm_compute; tauto.
Qed.

(** C4 (as amended). Let the radicand of a root render to [x] and let
    [str(0.5)] be [0.5]. If the index is absent, the text is one of
    [sqrt(x)], [x^0.5], [x**0.5], [x^(1/2)], [x**(1/2)], whatever the
    generator delivers. If the index is given and its text [t] parses to 2,
    the text is one of [sqrt(x)], [x^0.5], [x**0.5], [x^(1/t)], [x**(1/t)]:
    the five texts above when [t] is [2]. *)
Theorem sqrt_of_two_texts :
  builtin_str 0.5%float = "0.5" ->
  (forall args radicand g g1,
      args = [radicand] \/ (exists rest, args = None :: radicand :: rest) ->
      nodelist_to_text [radicand] (advance g) = (Return "x", g1) ->
      In (fst (render (macro "sqrt" args) g)) (root_of_two_texts "2"))
  /\ (forall (index : A) radicand rest t g g1 g2,
         nodelist_to_text [Some index] (advance g) = (Return t, g1) ->
         nodelist_to_text [radicand] g1 = (Return "x", g2) ->
         builtin_float t = Return 2%float ->
         In (fst (render (macro "sqrt" (Some index :: radicand :: rest)) g))
            (root_of_two_texts t)).
Proof.
  intros Hstr. split.
  - intros args radicand g g1 Hargs H.
    rewrite (sqrt_handler_without_index _ _ _ _ _ Hargs H).
    apply square_root_of_x.
  - intros index radicand rest t g g1 g2 H0 H1 Hfloat.
    rewrite (sqrt_handler_with_index _ _ _ _ _ _ _ _ H0 H1).
    unfold try_except, bind, lift, truediv. rewrite Hfloat. cbn.
    destruct (g O mod 2 =? 0); cbn; [now left |].
    rewrite Hstr. cbn.
    destruct (advance g2 O mod 2 =? 0); cbn; rewrite power_text_x;
      unfold literal_fraction; destruct (g2 O mod 2 =? 0); vm_compute; tauto.
Qed.

(** *** Constructs without a handler *)


(** C6. A construct whose name [macro_node_to_text] does not treat itself
    (such as [foo]) goes to the default handler, whatever its arguments: the
    text is the bare name, nothing is raised and the generator is left as it
    was. *)
Theorem unknown_construct_renders_its_name :
  forall (node : MacroNode A) g,
    is_in (macroname node) handled_names = false ->
    render node g = (Return (macroname node), g).
Proof.
  intros node g H.
  unfold macro_node_to_text, super_macro_node_to_text.
  remember (macroname node) as name eqn:Hname. clear Hname.
  cbn in H.
  repeat (apply orb_false_elim in H; destruct H as [?H H]).
  unfold is_in, dict_get. cbn.
  repeat match goal with
         | E : (name =? _)%string = false |- _ => rewrite E; clear E
         end.
  reflexivity.
Qed.

(** *** Roots, in full *)

Lemma decimal_part_run text g :
  (if Str.contains "." text then getitem (Str.split "." text) 1 else ret "") g
  = (Return (decimal_part text), g).
Proof.
  unfold decimal_part. destruct (Str.contains "." text) eqn:E; [| reflexivity].
  pose proof (split_dot text E) as Hlen. unfold getitem.
  destruct (Str.split "." text) as [| a [| b l]]; cbn in Hlen; try lia.
  reflexivity.
Qed.

(** X1. A root without index renders as [sqrt(C)] when the first draw is 0;
    otherwise as [C], in parentheses when it needs them, then [^] or [**] by
    the second draw, then [0.5] or [(1/2)] by the third. *)
Theorem sqrt_without_index_text :
  forall args (radicand : option A) c g g1,
    args = [radicand] \/ (exists rest, args = None :: radicand :: rest) ->
    nodelist_to_text [radicand] (advance g) = (Return c, g1) ->
    render (macro "sqrt" args) g =
      if g O mod 2 =? 0 then (Return ("sqrt(" ++ c ++ ")"), g1)
      else (Return ((if needs_parentheses c then "(" ++ c ++ ")" else c)
                    ++ (if g1 O mod 2 =? 0 then "^" else "**")
                    ++ (if advance g1 O mod 2 =? 0 then "0.5" else "(1/2)")),
            advance (advance g1)).
Proof.
  intros args radicand c g g1 Hargs H.
  rewrite (sqrt_handler_without_index _ _ _ _ _ Hargs H).
  unfold square_root. destruct (g O mod 2 =? 0); [reflexivity |].
  rewrite (bind_Return _ _ _ _ _ (randint_0_1 g1)).
  rewrite (bind_Return _ _ _ _ _ (randint_0_1 (advance g1))).
  cbn. now rewrite power_text_parts.
Qed.

(** X2. A root whose index text [t] parses to a number [r] other than zero
    renders as [sqrt(C)] when [r] equals 2 and the first draw is 0.
    Otherwise the exponent is [str(1.0 / r)] when that text has at most five
    characters after its dot and the third draw is 0, and the literal
    fraction [(1/t)] if not; it follows [C], in parentheses when it needs
    them, and [^] or [**] by the second draw. *)
Theorem sqrt_with_number_index_text :
  forall (index : A) radicand rest t r c g g1 g2,
    nodelist_to_text [Some index] (advance g) = (Return t, g1) ->
    nodelist_to_text [radicand] g1 = (Return c, g2) ->
    builtin_float t = Return r ->
    (r =? 0)%float = false ->
    render (macro "sqrt" (Some index :: radicand :: rest)) g =
      if (r =? 2)%float && (g O mod 2 =? 0)
      then (Return ("sqrt(" ++ c ++ ")"), g2)
      else
        let inverse := builtin_str (1 / r)%float in
        (Return ((if needs_parentheses c then "(" ++ c ++ ")" else c)
                 ++ (if g2 O mod 2 =? 0 then "^" else "**")
                 ++ (if (String.length (decimal_part inverse) <=? 5)%nat
                        && (advance g2 O mod 2 =? 0)
                     then inverse else "(1/" ++ t ++ ")")),
         advance (advance g2)).
Proof.
  intros index radicand rest t r c g g1 g2 H0 H1 Hfloat Hnonzero.
  rewrite (sqrt_handler_with_index _ _ _ _ _ _ _ _ H0 H1).
  unfold try_except at 1. unfold bind at 1 2. unfold lift. rewrite Hfloat.
  cbn [ret List.existsb].
  destruct ((r =? 2)%float && (g O mod 2 =? 0)); [reflexivity |].
  rewrite (bind_Return _ _ _ _ _ (randint_0_1 g2)).
  match goal with
  | |- bind ?block _ _ = _ =>
      assert (Hblock : block (advance g2)
                = (Return (if (String.length (decimal_part (builtin_str (1 / r)))
                               <=? 5)%nat
                              && (advance g2 O mod 2 =? 0)
                           then builtin_str (1 / r)
                           else literal_fraction t),
                   advance (advance g2)))
  end.
  { unfold try_except, truediv. rewrite Hnonzero, bind_ret.
    rewrite (bind_Return _ _ _ _ _ (decimal_part_run _ _)).
    rewrite (bind_Return _ _ _ _ _ (randint_0_1 (advance g2))).
    now destruct ((String.length (decimal_part (builtin_str (1 / r))) <=? 5)%nat
                  && (advance g2 O mod 2 =? 0)). }
  rewrite (bind_Return _ _ _ _ _ Hblock). cbn zeta.
  now rewrite power_text_parts.
Qed.

(** *** The other constructs *)

(** X3. [mathrm] renders its argument and returns it as it is, and returns
    [e] when the trimmed text is [e]. *)
Theorem mathrm_text :
  forall (arg : option A) rest content g g',
    nodelist_to_text [arg] g = (Return content, g') ->
    render (macro "mathrm" (arg :: rest)) g =
      (Return (if String.eqb (Str.strip content) "e" then "e" else content), g').
Proof.
  intros arg rest content g g' H.
  change (render (macro "mathrm" (arg :: rest)))
    with (_custom_mathrm_handler nodelist_to_text (macro "mathrm" (arg :: rest))).
  unfold _custom_mathrm_handler. cbn. run H.
  now destruct (String.eqb (Str.strip content) "e").
Qed.

(** X4. A subscript, the macro [_] with an argument, renders as [_(content)];
    [text], [textbf], [textit] and [mathbb] render as the content of their
    first argument. *)
Theorem subscript_and_wrappers_text :
  forall (arg : option A) rest content g g',
    nodelist_to_text [arg] g = (Return content, g') ->
    render (macro "_" (arg :: rest)) g = (Return ("_(" ++ content ++ ")"), g')
    /\ forall name,
        is_in name ["text"; "textbf"; "textit"; "mathbb"] = true ->
        render (macro name (arg :: rest)) g = (Return content, g').
Proof.
  intros arg rest content g g' H. split.
  - unfold macro_node_to_text. cbn. now run H.
  - intros name Hin. cbn in Hin. rewrite orb_false_r in Hin.
    repeat (apply orb_true_iff in Hin as [Hin | Hin]);
      apply String.eqb_eq in Hin; subst name;
      unfold macro_node_to_text; cbn; exact H.
Qed.

(** X5. Each macro of the symbol table renders as its fixed text, whatever
    arguments the node carries; nothing is drawn and nothing is raised. *)
Theorem symbol_table_text :
  List.Forall
    (fun entry =>
       forall nodeargd g,
         render {| macroname := fst entry; nodeargd := nodeargd |} g
         = (Return (snd entry), g))
    symbol_table.
Proof. repeat constructor. Qed.

(** X6. [infty] renders as one of [infinity], [inf] and the symbol, [pi] as
    [pi] or its symbol, and a Greek letter as its name or its symbol,
    whatever the generator delivers. *)
Theorem stochastic_symbols_texts :
  forall nodeargd g,
    In (fst (render {| macroname := "infty"; nodeargd := nodeargd |} g))
       (List.map Return ["infinity"; "inf"; "∞"])
    /\ In (fst (render {| macroname := "pi"; nodeargd := nodeargd |} g))
          (List.map Return ["pi"; "π"])
    /\ List.Forall
         (fun letter =>
            In (fst (render {| macroname := fst letter; nodeargd := nodeargd |} g))
               (List.map Return [fst letter; snd letter]))
         _greek_letters.
Proof.
  intros nodeargd g.
  assert (Pick : forall (population : list string) weights,
             List.length weights = List.length population ->
             List.last (List.map Some (random.accumulate None weights)) None
             = Some 1%float ->
             In (fst ((picked <- random.choices population weights ;;
                       getitem picked 0) g))
                (List.map Return population)).
  { intros population weights Hlen Hlast.
    destruct (choices_first_in population weights 1%float g Hlen Hlast eq_refl)
      as (x & E & Hin).
    rewrite E. apply List.in_map, Hin. }
  split; [| split].
  - exact (Pick ["infinity"; "inf"; "∞"] [0.4; 0.4; 0.2]%float eq_refl eq_refl).
  - exact (Pick ["pi"; "π"] [0.8; 0.2]%float eq_refl eq_refl).
  - unfold _greek_letters at 1.
    repeat (apply List.Forall_cons;
            [cbn beta; cbn [fst snd];
             match goal with
             | |- In _ (List.map Return ?population) =>
                 exact (Pick population [0.8; 0.2]%float eq_refl eq_refl)
             end |]).
    apply List.Forall_nil.
Qed.

End HandlerProperties.

(** ** The generator decides the text *)



Lemma replayable_ret {X} (x : X) : replayable (ret x).
Proof. intros g g' E. now split. Qed.

Lemma replayable_raise {X} e : replayable (@raise X e).
Proof. intros g g' E. now split. Qed.

Lemma replayable_lift {X} (o : outcome X) : replayable (lift o).
Proof. intros g g' E. now split. Qed.

Lemma replayable_bind {X Y} (m : Py X) (k : X -> Py Y) :
  replayable m -> (forall x, replayable (k x)) -> replayable (bind m k).
Proof.
  intros Hm Hk g g' E. unfold bind.
  destruct (Hm g g' E) as [E1 E2].
  destruct (m g) as [o1 s1], (m g') as [o2 s2]. cbn in E1, E2. subst o2.
  destruct o1 as [x | e]; [now apply Hk | now split].
Qed.

Lemma replayable_try_except {X} (m handler : Py X) excs :
  replayable m -> replayable handler -> replayable (try_except m excs handler).
Proof.
  intros Hm Hh g g' E. unfold try_except.
  destruct (Hm g g' E) as [E1 E2].
  destruct (m g) as [o1 s1], (m g') as [o2 s2]. cbn in E1, E2. subst o2.
  destruct o1 as [x | e]; [now split |].
  destruct (List.existsb (exception_eqb e) excs); [now apply Hh | now split].
Qed.

Lemma replayable_getitem {X} (l : list X) i : replayable (getitem l i).
Proof.
  unfold getitem. destruct (List.nth_error l i);
    [apply replayable_ret | apply replayable_raise].
Qed.

Lemma replayable_next : replayable random.next.
Proof.
  intros g g' E. unfold random.next. cbn. split; [now rewrite (E O) |].
  intros n. apply E.
Qed.

Lemma replayable_randint a b : replayable (random.randint a b).
Proof.
  apply replayable_bind; [apply replayable_next | intros; apply replayable_ret].
Qed.

Lemma replayable_random : replayable random.random.
Proof.
  apply replayable_bind; [apply replayable_next | intros; apply replayable_ret].
Qed.

Lemma replayable_choices {X} (population : list X) weights :
  replayable (random.choices population weights).
Proof.
  unfold random.choices.
  destruct (negb _); [apply replayable_raise |].
  destruct (List.last _ _); [| apply replayable_raise].
  destruct (_ <=? _)%float; [apply replayable_raise |].
  apply replayable_bind; [apply replayable_random | intros u].
  apply replayable_bind; [apply replayable_getitem | intros; apply replayable_ret].
Qed.

Lemma replayable_bind_getitem {X Y} (l : list X) i (k : X -> Py Y) :
  (forall x, In x l -> replayable (k x)) -> replayable (bind (getitem l i) k).
Proof.
  intros Hk. unfold getitem.
  destruct (List.nth_error l i) as [x |] eqn:E.
  - intros g g' Eg. rewrite !bind_ret.
    apply Hk; [eapply List.nth_error_In; eassumption | assumption].
  - intros g g' Eg. now split.
Qed.

Create HintDb replay discriminated.
#[export] Hint Resolve replayable_ret replayable_raise replayable_lift
  replayable_getitem replayable_randint replayable_choices : replay.

(** [replay] proves [replayable] of a computation built from binds, tests
    and the calls above. *)
Ltac replay :=
  repeat first
    [ progress auto with replay
    | apply replayable_bind_getitem; intros ? ?
    | apply replayable_bind; [| intros ? ]
    | apply replayable_try_except
    | match goal with
      | |- replayable (if ?c then _ else _) => destruct c
      | |- replayable (match ?x with _ => _ end) => destruct x
      end ].

Section Replay.

Context {A : Type}.
Variable nodelist_to_text : list (option A) -> Py string.
Variable builtin_float : string -> outcome float.
Variable builtin_str : float -> string.

Lemma macro_node_to_text_replayable (node : MacroNode A) :
  (forall arg, In arg (arguments node) -> replayable (nodelist_to_text [arg])) ->
  replayable (macro_node_to_text nodelist_to_text builtin_float builtin_str node).
Proof.
  destruct node as [name [[args] |]]; cbn; intros Hwalk;
    unfold macro_node_to_text, _custom_sqrt_handler, _custom_frac_handler,
      _custom_binom_handler, _custom_mathrm_handler, _custom_boxed_handler,
      _custom_pi_handler, _custom_infty_handler, _get_greek_letter_text,
      super_macro_node_to_text, first_argument, square_root, truediv,
      has_arguments;
    cbn [macroname nodeargd argnlist]; rewrite ?andb_false_r; replay.
Qed.

End Replay.

(** ** The tree walk *)

Lemma concat_texts_one (m : Py string) g : concat_texts [Some m] g = m g.
Proof.
  cbn. unfold bind. destruct (m g) as [[text | e] g']; [| reflexivity].
  cbn. now rewrite append_empty_r.
Qed.

Lemma concat_texts_replayable (renderings : list (option (Py string))) :
  List.Forall (fun r => match r with Some m => replayable m | None => True end)
              renderings ->
  replayable (concat_texts renderings).
Proof.
  induction 1 as [| r l Hr Hl IH]; cbn; [apply replayable_ret |].
  apply replayable_bind; [destruct r; [assumption | apply replayable_ret] |].
  intros s. apply replayable_bind; [assumption | intros; apply replayable_ret].
Qed.

Section Walk.

Variable builtin_float : string -> outcome float.
Variable builtin_str : float -> string.

(** The walk hands a construct to [macro_node_to_text], with itself as the
    walk to call back. *)
Lemma macro_node_to_text_map {A B} (f : A -> B)
      (walk : list (option B) -> Py string) (m : MacroNode A) g :
  macro_node_to_text walk builtin_float builtin_str (MacroNode_map f m) g
  = macro_node_to_text (fun l => walk (List.map (option_map f) l))
      builtin_float builtin_str m g.
Proof.
  destruct m as [name [[args] |]]; unfold macro_node_to_text, MacroNode_map;
    cbn [macroname nodeargd option_map argnlist].
  - destruct args as [| arg0 [| arg1 rest]]; unfold has_arguments;
      cbn [nodeargd argnlist List.map List.length negb Nat.eqb andb];
      repeat match goal with
             | |- (if ?c then _ else _) _ = _ => destruct c
             end; try reflexivity.
    destruct arg0; reflexivity.
  - unfold has_arguments; cbn [nodeargd andb];
      repeat match goal with
             | |- (if ?c then _ else _) _ = _ => destruct c
             end; reflexivity.
Qed.

Lemma nodelist_to_text_one (node : Node) g :
  nodelist_to_text builtin_float builtin_str [Some node] g
  = node_to_text builtin_float builtin_str node g.
Proof. apply concat_texts_one. Qed.

Lemma nodelist_to_text_Construct (m : MacroNode Node) g :
  nodelist_to_text builtin_float builtin_str [Some (Construct m)] g
  = macro_node_to_text (nodelist_to_text builtin_float builtin_str)
      builtin_float builtin_str m g.
Proof.
  rewrite nodelist_to_text_one. cbn [node_to_text].
  apply macro_node_to_text_map.
Qed.

End Walk.

(** ** Rendering raises nothing *)

Lemma succeeds_ret {X} (x : X) : succeeds (ret x).
Proof. intros g. now exists x, g. Qed.

Lemma succeeds_bind {X Y} (m : Py X) (k : X -> Py Y) :
  succeeds m -> (forall x, succeeds (k x)) -> succeeds (bind m k).
Proof.
  intros Hm Hk g. destruct (Hm g) as (x & g' & E).
  rewrite (bind_Return _ _ _ _ _ E). apply Hk.
Qed.

Lemma succeeds_randint a b : succeeds (random.randint a b).
Proof. intros g. now eexists _, _. Qed.

Lemma raises_only_succeeds {X} excs (m : Py X) : succeeds m -> raises_only excs m.
Proof. intros Hm g. destruct (Hm g) as (x & g' & E). now rewrite E. Qed.

Lemma raises_only_bind {X Y} excs (m : Py X) (k : X -> Py Y) :
  raises_only excs m -> (forall x, raises_only excs (k x)) ->
  raises_only excs (bind m k).
Proof.
  intros Hm Hk g. unfold bind. specialize (Hm g).
  destruct (m g) as [[x | e] g']; [apply Hk | exact Hm].
Qed.

Lemma succeeds_try_except {X} (m handler : Py X) excs :
  raises_only excs m -> succeeds handler -> succeeds (try_except m excs handler).
Proof.
  intros Hm Hh g. unfold try_except. specialize (Hm g).
  destruct (m g) as [[x | e] g']; [now exists x, g' |].
  cbn in Hm. rewrite Hm. apply Hh.
Qed.

Lemma raises_only_truediv a b : raises_only [ZeroDivisionError; ValueError] (truediv a b).
Proof. intros g. unfold truediv. now destruct (b =? 0)%float. Qed.

Lemma succeeds_choices {X} (population : list X) weights total :
  List.length weights = List.length population ->
  List.last (List.map Some (random.accumulate None weights)) None = Some total ->
  (total + 0 <=? 0)%float = false ->
  succeeds (picked <- random.choices population weights ;; getitem picked 0).
Proof.
  intros Hlen Hlast Htotal g.
  destruct (choices_first population weights total g Hlen Hlast Htotal)
    as (x & g' & E & _).
  now exists x, g'.
Qed.

Lemma succeeds_bind_ret {X Y} (x : X) (k : X -> Py Y) :
  succeeds (k x) -> succeeds (bind (ret x) k).
Proof. intros H g. rewrite bind_ret. apply H. Qed.

Create HintDb succeed discriminated.
#[export] Hint Resolve succeeds_ret succeeds_randint raises_only_truediv : succeed.

(** [succeed] proves [succeeds] of a computation built from binds, tests and
    calls that return. *)
Ltac succeed :=
  repeat first
    [ progress auto with succeed
    | apply succeeds_bind_ret
    | eapply succeeds_choices; reflexivity
    | apply succeeds_bind; [| intros ? ]
    | match goal with
      | H : forall arg, In arg _ -> succeeds _ |- succeeds (_ [_]) =>
          apply H; cbn; tauto
      | |- succeeds (if Str.contains ?a ?b then getitem _ _ else _) =>
          let E := fresh "E" in
          destruct (Str.contains a b) eqn:E;
          [apply succeeds_getitem, split_dot, E |]
      | |- succeeds (if ?c then _ else _) => destruct c
      | |- succeeds (match ?x with _ => _ end) => destruct x
      end ].

Section NothingRaised.

Context {A : Type}.
Variable nodelist_to_text : list (option A) -> Py string.
Variable builtin_float : string -> outcome float.
Variable builtin_str : float -> string.

(** [float] raises nothing but [ValueError]. *)
Hypothesis float_raises_ValueError :
  forall text e, builtin_float text = Raise e -> e = ValueError.

Lemma raises_only_float text :
  raises_only [ValueError; TypeError]
    (r <- lift (builtin_float text) ;; ret (Some r)).
Proof.
  intros g. unfold bind, lift.
  destruct (builtin_float text) as [r | e] eqn:E; cbn; [exact I |].
  now rewrite (float_raises_ValueError _ _ E).
Qed.

Lemma macro_node_to_text_succeeds (node : MacroNode A) :
  (forall arg, In arg (arguments node) -> succeeds (nodelist_to_text [arg])) ->
  succeeds (macro_node_to_text nodelist_to_text builtin_float builtin_str node).
Proof.
  destruct node as [name [[[| arg0 [| arg1 rest]]] |]]; cbn; intros Hwalk;
    unfold macro_node_to_text, _custom_sqrt_handler, _custom_frac_handler,
      _custom_binom_handler, _custom_mathrm_handler, _custom_boxed_handler,
      _custom_pi_handler, _custom_infty_handler, _get_greek_letter_text,
      super_macro_node_to_text, first_argument, square_root, has_arguments;
    cbn [macroname nodeargd argnlist List.length Nat.eqb negb Nat.ltb Nat.leb
         getitem List.nth_error];
    rewrite ?andb_false_r, ?andb_true_r, ?bind_ret.
  all: succeed.
  - apply succeeds_try_except; [apply raises_only_float | succeed].
  - apply succeeds_try_except; [| succeed].
    apply raises_only_bind; [apply raises_only_truediv | intros inv_radicand].
    apply raises_only_succeeds. succeed.
Qed.

(** X7. A construct raises nothing when rendering each of its arguments
    raises nothing and [float] raises at most [ValueError]: what the handlers
    could raise themselves (an index out of range, a text that is no number,
    a division by zero) is either excluded by their tests or caught. *)
Theorem handlers_raise_nothing :
  forall (node : MacroNode A),
    (forall arg g, In arg (arguments node) ->
       exists text g', nodelist_to_text [arg] g = (Return text, g')) ->
    forall g, exists text g',
      macro_node_to_text nodelist_to_text builtin_float builtin_str node g
      = (Return text, g').
Proof.
  intros node Hwalk. apply macro_node_to_text_succeeds.
  intros arg Harg g. now apply Hwalk.
Qed.

End NothingRaised.

(** ** Boxed values and nesting *)

Section Nesting.

Context {A : Type}.
Variable nodelist_to_text : list (option A) -> Py string.
Variable builtin_float : string -> outcome float.
Variable builtin_str : float -> string.
Variable construct : MacroNode A -> A.

Lemma boxed_handler_text (arg : option A) rest content g g' :
  nodelist_to_text [arg] g = (Return content, g') ->
  macro_node_to_text nodelist_to_text builtin_float builtin_str
    (macro "boxed" (arg :: rest)) g = (Return (brackets content), g').
Proof.
  intros H.
  change (_custom_boxed_handler nodelist_to_text (macro "boxed" (arg :: rest)) g
          = (Return (brackets content), g')).
  unfold _custom_boxed_handler. cbn. now run H.
Qed.

(** The tree walk hands a construct to [macro_node_to_text]. *)
Hypothesis walk_construct :
  forall m g,
    nodelist_to_text [Some (construct m)] g
    = macro_node_to_text nodelist_to_text builtin_float builtin_str m g.

Lemma boxed_in_iter k (x : A) content g g' :
  nodelist_to_text [Some x] g = (Return content, g') ->
  nodelist_to_text [Some (Nat.iter k (boxed_in construct) x)] g
  = (Return (Nat.iter k brackets content), g').
Proof.
  intros H. induction k as [| k IH]; [exact H |].
  rewrite Nat.iter_succ. unfold boxed_in at 1. rewrite walk_construct.
  rewrite Nat.iter_succ.
  now apply boxed_handler_text.
Qed.

(** C7. A boxed construct renders to its rendered content between square
    brackets. Under a tree walk that hands constructs to
    [macro_node_to_text], nesting composes: [k] boxed constructs directly
    inside one another render to the innermost content between [k] pairs of
    brackets, so a box in a box around 5 gives two opening brackets, 5, and
    two closing brackets. *)
Theorem boxed_nests :
  (forall (arg : option A) rest content g g',
      nodelist_to_text [arg] g = (Return content, g') ->
      macro_node_to_text nodelist_to_text builtin_float builtin_str
        (macro "boxed" (arg :: rest)) g = (Return ("[" ++ content ++ "]"), g'))
  /\ (forall k (x : A) content g g',
         nodelist_to_text [Some x] g = (Return content, g') ->
         nodelist_to_text [Some (Nat.iter k (boxed_in construct) x)] g
         = (Return (Nat.iter k brackets content), g'))
  /\ (forall (x : A) g g',
         nodelist_to_text [Some x] g = (Return "5", g') ->
         nodelist_to_text [Some (boxed_in construct (boxed_in construct x))] g
         = (Return "[[5]]", g')).
Proof.
  split; [exact boxed_handler_text | split].
  - intros k x content g g' H. now apply boxed_in_iter.
  - intros x g g' H. exact (boxed_in_iter 2 x "5" g g' H).
Qed.

End Nesting.

(** ** Joined texts raise nothing *)

Lemma concat_texts_succeeds (renderings : list (option (Py string))) :
  List.Forall (fun r => match r with Some m => succeeds m | None => True end)
              renderings ->
  succeeds (concat_texts renderings).
Proof.
  induction 1 as [| r l Hr Hl IH]; cbn; [apply succeeds_ret |].
  apply succeeds_bind; [destruct r; [assumption | apply succeeds_ret] |].
  intros s. apply succeeds_bind; [assumption | intros; apply succeeds_ret].
Qed.

(** * Instances *)

(** ** The walks and builtins used in the instances *)

Lemma literal_text_replayable nodelist : replayable (literal_text nodelist).
Proof.
  apply concat_texts_replayable.
  induction nodelist as [| [text |] l IH]; cbn; constructor;
    try assumption; [apply replayable_ret | exact I].
Qed.

Lemma Builtins_float_raises_ValueError text e :
  Builtins.float text = Raise e -> e = ValueError.
Proof.
  unfold Builtins.float.
  repeat match goal with
         | |- context [match ?x with _ => _ end] => destruct x
         end; congruence.
Qed.

(** ** Fractions and binomial coefficients *)

(** C1, at an instance: [frac] over the texts [a] and [b]. *)
Lemma frac_wraps_both_sides_or_none_witness :
  macro_node_to_text literal_text Builtins.float Builtins.str
    (macro "frac" [Some "a"; Some "b"]) (tape []) = (Return "a/b", tape []).
Proof.
  apply (proj1 (proj2 (frac_wraps_both_sides_or_none literal_text
                         Builtins.float Builtins.str)) _ _ _ (tape []));
    reflexivity.
Defined.

(** C1 as stated fails: with numerator [a+1] and denominator [b] the handler
    wraps the denominator too. *)
Lemma frac_wraps_the_plain_side_too :
  fst (_custom_frac_handler literal_text (macro "frac" [Some "a+1"; Some "b"]) (tape []))
    = Return "(a+1)/(b)"
  /\ Return "(a+1)/(b)" <> Return (A := string) "(a+1)/b".
Proof. split; [reflexivity | discriminate]. Qed.

(** C8, at an instance: [binom] over the texts [n] and [k]. *)
Lemma binom_text_witness :
  macro_node_to_text literal_text Builtins.float Builtins.str
    (macro "binom" [Some "n"; Some "k"]) (tape [1; 0]) = (Return "C(n,k)", tape [1; 0]).
Proof.
  exact (binom_text literal_text Builtins.float Builtins.str
           (Some "n") (Some "k") [] "n" "k" (tape [1; 0]) (tape [1; 0]) (tape [1; 0])
           eq_refl eq_refl).
Defined.

(** C9, at an instance: [frac] with one argument, [sqrt] without parsed
    arguments. *)
Lemma handlers_empty_on_missing_arguments_witness :
  _custom_frac_handler literal_text (macro "frac" [Some "a"]) (tape []) = (Return "", tape [])
  /\ _custom_sqrt_handler literal_text Builtins.float Builtins.str
       {| macroname := "sqrt"; nodeargd := None |} (tape []) = (Return "", tape []).
Proof.
  split.
  - exact (proj1 (proj1 (handlers_empty_on_missing_arguments literal_text
                           Builtins.float Builtins.str
                           (macro "frac" [Some "a"]) (tape []))
                        (le_n 2))).
  - exact (proj1 (proj2 (handlers_empty_on_missing_arguments literal_text
                           Builtins.float Builtins.str
                           {| macroname := "sqrt"; nodeargd := None |} (tape []))
                        I)).
Defined.

(** ** Roots *)

(** C4, at an instance: the index text [2] and the draws 1, 1, 1. *)
Lemma sqrt_of_two_texts_witness :
  fst (macro_node_to_text literal_text Builtins.float Builtins.str
         (macro "sqrt" [Some "2"; Some "x"]) (tape [1; 1; 1]))
    = Return "x**(1/2)"
  /\ In (fst (macro_node_to_text literal_text Builtins.float Builtins.str
                (macro "sqrt" [Some "2"; Some "x"]) (tape [1; 1; 1])))
        (root_of_two_texts "2").
Proof.
  split; [reflexivity |].
  apply (proj2 (sqrt_of_two_texts literal_text Builtins.float Builtins.str eq_refl)
           "2" (Some "x") [] "2" (tape [1; 1; 1]) (tape [1; 1]) (tape [1; 1]));
    reflexivity.
Defined.

(** C4 as stated fails: the index text [2.0] parses to 2, and with the draws
    1, 0, 1 the text is [x^(1/2.0)], none of the five. *)
Lemma sqrt_of_two_keeps_the_index_text :
  Builtins.float "2.0" = Return 2%float
  /\ fst (macro_node_to_text literal_text Builtins.float Builtins.str
            (macro "sqrt" [Some "2.0"; Some "x"]) (tape [1; 0; 1]))
     = Return "x^(1/2.0)"
  /\ ~ In (Return "x^(1/2.0)")
          (List.map Return ["sqrt(x)"; "x^0.5"; "x**0.5"; "x^(1/2)"; "x**(1/2)"]).
Proof.
  split; [reflexivity | split; [reflexivity |]].
  cbn. intros H. repeat destruct H as [H | H]; try discriminate H. exact H.
Qed.

(** C5, at an instance: the index text [n]. *)
Lemma sqrt_index_not_a_number_witness :
  macro_node_to_text literal_text Builtins.float Builtins.str
    (macro "sqrt" [Some "n"; Some "x+1"]) (tape [0; 1])
  = (Return "(x+1)**(1/n)", tape []).
Proof.
  apply (sqrt_index_not_a_number literal_text Builtins.float Builtins.str
           "n" (Some "x+1") [] "n" "x+1" (tape [0; 1]) (tape [1]) (tape [1]));
    reflexivity.
Defined.

(** C10, at an instance: the index text [0]. *)
Lemma sqrt_index_zero_witness :
  macro_node_to_text literal_text Builtins.float Builtins.str
    (macro "sqrt" [Some "0"; Some "x"]) (tape [1; 0])
  = (Return "x^(1/0)", tape []).
Proof.
  apply (sqrt_index_zero literal_text Builtins.float Builtins.str
           "0" (Some "x") [] "0" 0%float "x" (tape [1; 0]) (tape [0]) (tape [0]));
    try reflexivity.
  now left.
Defined.

(** ** Constructs without a handler, boxed values *)

(** C6, at an instance: [foo] with one argument. *)
Lemma unknown_construct_renders_its_name_witness :
  macro_node_to_text literal_text Builtins.float Builtins.str
    (macro "foo" [Some "x"]) (tape [1]) = (Return "foo", tape [1]).
Proof.
  exact (unknown_construct_renders_its_name literal_text Builtins.float Builtins.str
           (macro "foo" [Some "x"]) (tape [1]) eq_refl).
Defined.

(** C7, at an instance: the tree walk over [Node], and a box in a box. *)
Lemma boxed_nests_witness :
  nodelist_to_text Builtins.float Builtins.str
    [Some (boxed (boxed (Text "5")))] (tape []) = (Return "[[5]]", tape []).
Proof.
  exact (proj2 (proj2 (boxed_nests (nodelist_to_text Builtins.float Builtins.str)
                         Builtins.float Builtins.str Construct
                         (nodelist_to_text_Construct Builtins.float Builtins.str)))
           (Text "5") (tape []) (tape []) eq_refl).
Defined.

(** ** Further instances *)

Lemma literal_text_succeeds nodelist : succeeds (literal_text nodelist).
Proof.
  apply concat_texts_succeeds.
  induction nodelist as [| [text |] l IH]; cbn; constructor;
    try assumption; [apply succeeds_ret | exact I].
Qed.

(** X1, at an instance: [\sqrt{x+1}] with the draws 1, 0, 1. *)
Lemma sqrt_without_index_text_witness :
  macro_node_to_text literal_text Builtins.float Builtins.str
    (macro "sqrt" [None; Some "x+1"]) (tape [1; 0; 1])
  = (Return "(x+1)^(1/2)", tape []).
Proof.
  exact (sqrt_without_index_text literal_text Builtins.float Builtins.str
           [None; Some "x+1"] (Some "x+1") "x+1" (tape [1; 0; 1]) (tape [0; 1])
           (or_intror (ex_intro _ [] eq_refl)) eq_refl).
Defined.

(** X2, at an instance: [\sqrt[4]{x+y}] with the draws 1, 1, 0. *)
Lemma sqrt_with_number_index_text_witness :
  macro_node_to_text literal_text Builtins.float Builtins.str
    (macro "sqrt" [Some "4"; Some "x+y"]) (tape [1; 1; 0])
  = (Return "(x+y)**0.25", tape []).
Proof.
  exact (sqrt_with_number_index_text literal_text Builtins.float Builtins.str
           "4" (Some "x+y") [] "4" 4%float "x+y" (tape [1; 1; 0]) (tape [1; 0])
           (tape [1; 0]) eq_refl eq_refl eq_refl eq_refl).
Defined.

(** X3, at an instance: [\mathrm{ e }]. *)
Lemma mathrm_text_witness :
  macro_node_to_text literal_text Builtins.float Builtins.str
    (macro "mathrm" [Some " e "]) (tape []) = (Return "e", tape []).
Proof.
  exact (mathrm_text literal_text Builtins.float Builtins.str
           (Some " e ") [] " e " (tape []) (tape []) eq_refl).
Defined.

(** X4, at an instance: the subscript [i+1]. *)
Lemma subscript_and_wrappers_text_witness :
  macro_node_to_text literal_text Builtins.float Builtins.str
    (macro "_" [Some "i+1"]) (tape []) = (Return "_(i+1)", tape []).
Proof.
  exact (proj1 (subscript_and_wrappers_text literal_text Builtins.float Builtins.str
                  (Some "i+1") [] "i+1" (tape []) (tape []) eq_refl)).
Defined.

(** X7, at an instance: [\sqrt[0]{x}]. *)
Lemma handlers_raise_nothing_witness :
  exists text g',
    macro_node_to_text literal_text Builtins.float Builtins.str
      (macro "sqrt" [Some "0"; Some "x"]) (tape [1]) = (Return text, g').
Proof.
  exact (handlers_raise_nothing literal_text Builtins.float Builtins.str
           Builtins_float_raises_ValueError (macro "sqrt" [Some "0"; Some "x"])
           (fun arg g _ => literal_text_succeeds [arg] g) (tape [1])).
Defined.

(** ** Some inputs of [main], as trees *)

(** [\frac{x+1}{y-2}] *)
Example main_frac :
  fst (node_to_text Builtins.float Builtins.str
         (Construct (macro "frac" [Some (braces [Text "x+1"]);
                                   Some (braces [Text "y-2"])]))
         (tape []))
  = Return "(x+1)/(y-2)".
Proof. reflexivity. Qed.

(** [\sqrt[3]{x+y}], with the draws 1, 0, 0: [str(1.0 / 3.0)] has sixteen
    characters after its dot. *)
Example main_cube_root :
  fst (node_to_text Builtins.float Builtins.str
         (Construct (macro "sqrt" [Some (Group "[" "]" [Text "3"]);
                                   Some (braces [Text "x+y"])]))
         (tape [1; 0; 0]))
  = Return "(x+y)^(1/3)".
Proof. vm_compute. reflexivity. Qed.

(** [\boxed{x = \boxed{5}}] *)
Example main_boxed :
  fst (node_to_text Builtins.float Builtins.str
         (Construct (macro "boxed"
            [Some (braces [Text "x = ";
                           Construct (macro "boxed" [Some (braces [Text "5"])])])]))
         (tape []))
  = Return "[x = [5]]".
Proof. reflexivity. Qed.

(** [\langle x \rangle] *)
Example main_specials :
  fst (node_to_text Builtins.float Builtins.str
         (braces [Special "\langle"; Text " x "; Special "\rangle"]) (tape []))
  = Return "< x >".
Proof. reflexivity. Qed.

(** * Further properties *)

(** ** Texts and their characters *)

Lemma chars_append a b : chars (a ++ b) = List.app (chars a) (chars b).
Proof.
  unfold chars. induction a as [| x a IH]; [reflexivity |].
  change (String x a ++ b) with (String x (a ++ b)).
  cbn [list_ascii_of_string List.app]. now rewrite IH.
Qed.

Lemma chars_rev s : chars (Str.rev s) = List.rev (chars s).
Proof. unfold chars, Str.rev. apply list_ascii_of_string_of_list_ascii. Qed.

Lemma prefix_empty s : String.prefix "" s = true.
Proof. now destruct s. Qed.

(** [c in s] for a single character [c]. *)
Lemma contains_char c s :
  Str.contains (String c "") s = true <-> In c (chars s).
Proof.
  unfold chars. induction s as [| a s IH]; cbn [Str.contains list_ascii_of_string In].
  - cbn. split; [discriminate | contradiction].
  - rewrite orb_true_iff, IH. cbn [String.prefix].
    destruct (ascii_dec c a) as [-> | Hne].
    + rewrite prefix_empty. tauto.
    + split; [intros [H | H]; [discriminate | now right] |].
      intros [H | H]; [congruence | now right].
Qed.

Lemma substring_all s : String.substring 0 (String.length s) s = s.
Proof. induction s as [| a s IH]; cbn; [reflexivity | now rewrite IH]. Qed.

Lemma drop_O s : Str.drop 0 s = s.
Proof. unfold Str.drop. rewrite Nat.sub_0_r. apply substring_all. Qed.

Lemma drop_S n a s : Str.drop (S n) (String a s) = Str.drop n s.
Proof. reflexivity. Qed.

(** A prefix and what [drop] leaves make up the text. *)
Lemma prefix_drop w s :
  String.prefix w s = true -> s = w ++ Str.drop (String.length w) s.
Proof.
  revert s. induction w as [| x w IH]; intros s H.
  - cbn. now rewrite drop_O.
  - destruct s as [| a s]; [discriminate |]. cbn [String.prefix] in H.
    destruct (ascii_dec x a) as [-> | _]; [| discriminate].
    change (String a w ++ Str.drop (String.length (String a w)) (String a s))
      with (String a (w ++ Str.drop (String.length w) s)).
    now rewrite <- IH.
Qed.

(** What [lstrip_chars] takes off the front is made of the texts of [ws]. *)
Lemma lstrip_chars_front ws fuel s :
  exists front,
    chars s = List.app front (chars (Str.lstrip_chars ws fuel s))
    /\ forall c, In c front -> exists w, In w ws /\ In c (chars w).
Proof.
  revert s. induction fuel as [| fuel IH]; intros s; cbn [Str.lstrip_chars].
  - exists []. split; [reflexivity | contradiction].
  - destruct (List.find (fun w => String.prefix w s) ws) as [w |] eqn:E.
    + apply List.find_some in E as [Hin Hpre].
      destruct (IH (Str.drop (String.length w) s)) as (front & Hfront & Hws).
      exists (List.app (chars w) front). split.
      * rewrite (prefix_drop w s Hpre) at 1.
        now rewrite chars_append, Hfront, List.app_assoc.
      * intros c Hc. apply List.in_app_or in Hc as [Hc | Hc]; [now exists w | now apply Hws].
    + exists []. split; [reflexivity | contradiction].
Qed.

Lemma outside_spec c ws w :
  outside c ws = true -> In w ws -> ~ In c (chars w).
Proof.
  unfold outside. rewrite List.forallb_forall. intros H Hin Hc.
  specialize (H w Hin). apply negb_true_iff in H.
  assert (List.existsb (Ascii.eqb c) (chars w) = true); [| congruence].
  apply List.existsb_exists. exists c. split; [assumption | apply Ascii.eqb_refl].
Qed.

Lemma lstrip_chars_In ws fuel s c :
  In c (chars (Str.lstrip_chars ws fuel s)) -> In c (chars s).
Proof.
  destruct (lstrip_chars_front ws fuel s) as (front & -> & _).
  intros H. apply List.in_or_app. now right.
Qed.

Lemma lstrip_chars_keeps ws fuel s c :
  outside c ws = true -> In c (chars s) ->
  In c (chars (Str.lstrip_chars ws fuel s)).
Proof.
  intros Hout. destruct (lstrip_chars_front ws fuel s) as (front & -> & Hws).
  intros H. apply List.in_app_or in H as [H | H]; [| assumption].
  destruct (Hws c H) as (w & Hin & Hc). now destruct (outside_spec c ws w Hout Hin).
Qed.

(** [strip] adds no character. *)
Lemma strip_In s c : In c (chars (Str.strip s)) -> In c (chars s).
Proof.
  unfold Str.strip, Str.rstrip, Str.lstrip. rewrite chars_rev, <- List.in_rev.
  intros H. apply lstrip_chars_In in H. rewrite chars_rev, <- List.in_rev in H.
  now apply lstrip_chars_In in H.
Qed.

Lemma outside_rev c ws :
  outside c ws = true -> outside c (List.map Str.rev ws) = true.
Proof.
  unfold outside. rewrite !List.forallb_forall.
  intros Hout w Hw. apply List.in_map_iff in Hw as (w0 & <- & Hw0).
  specialize (Hout w0 Hw0). apply negb_true_iff in Hout. apply negb_true_iff.
  rewrite chars_rev.
  destruct (List.existsb (Ascii.eqb c) (List.rev (chars w0))) eqn:E; [| reflexivity].
  apply List.existsb_exists in E as (x & Hx & Hcx). apply List.in_rev in Hx.
  assert (List.existsb (Ascii.eqb c) (chars w0) = true); [| congruence].
  apply List.existsb_exists. now exists x.
Qed.

(** [strip] keeps every character that is no part of a blank. *)
Lemma strip_keeps s c :
  outside c Str.whitespace = true -> In c (chars s) -> In c (chars (Str.strip s)).
Proof.
  intros Hout H. unfold Str.strip, Str.rstrip, Str.lstrip.
  rewrite chars_rev, <- List.in_rev.
  apply lstrip_chars_keeps; [now apply outside_rev |].
  rewrite chars_rev, <- List.in_rev. now apply lstrip_chars_keeps.
Qed.

(** ** The two tests for parentheses *)

Lemma contains_strip op text :
  In op ["+"; "-"; "*"; "/"; "^"; " "] ->
  Str.contains op (Str.strip text) = true -> Str.contains op text = true.
Proof.
  intros Hop H. cbn in Hop.
  repeat destruct Hop as [<- | Hop]; try contradiction;
    apply contains_char, strip_In, contains_char, H.
Qed.

(** X8. The test of the fraction handler is the stricter one: a text that
    [is_complex] accepts is accepted by [needs_parentheses] of the root
    handler, and not the other way round, since [is_complex] looks at the
    trimmed text: [" a "] needs parentheses under a root and none in a
    fraction. *)
Theorem complex_texts_need_parentheses :
  (forall text, is_complex text = true -> needs_parentheses text = true)
  /\ exists text, needs_parentheses text = true /\ is_complex text = false.
Proof.
  split.
  - intros text H. unfold is_complex in H. unfold needs_parentheses.
    apply List.existsb_exists in H as (op & Hop & H).
    apply List.existsb_exists. exists op. split; [assumption |].
    now apply contains_strip.
  - exists " a ". split; reflexivity.
Qed.

(** A text with a slash passes both tests. *)
Lemma slash_is_complex text :
  In "/"%char (chars text) ->
  is_complex text = true /\ needs_parentheses text = true.
Proof.
  intros H. unfold is_complex, needs_parentheses. split;
    apply List.existsb_exists; exists "/"; (split; [cbn; tauto |]);
    apply contains_char; [apply strip_keeps; [reflexivity | assumption] | assumption].
Qed.

Lemma In_chars_middle a c b : In c (chars (a ++ String c b)).
Proof.
  rewrite chars_append. apply List.in_or_app. right. now left.
Qed.

Section Composition.

Context {A : Type}.
Variable nodelist_to_text : list (option A) -> Py string.
Variable builtin_float : string -> outcome float.
Variable builtin_str : float -> string.

#[local] Abbreviation render :=
  (macro_node_to_text nodelist_to_text builtin_float builtin_str).

Lemma frac_text_complex name (arg0 arg1 : option A) rest numerator denominator
      g g1 g2 :
  is_in name ["frac"; "dfrac"; "tfrac"] = true ->
  nodelist_to_text [arg0] g = (Return numerator, g1) ->
  nodelist_to_text [arg1] g1 = (Return denominator, g2) ->
  exists text,
    render (macro name (arg0 :: arg1 :: rest)) g = (Return text, g2)
    /\ is_complex text = true /\ needs_parentheses text = true.
Proof.
  intros Hname H0 H1.
  rewrite (frac_text _ builtin_float builtin_str name _ _ rest _ _ _ _ _ Hname H0 H1).
  eexists. split; [reflexivity |].
  apply slash_is_complex.
  destruct (is_complex numerator || is_complex denominator).
  - change ("(" ++ numerator ++ ")/(" ++ denominator ++ ")")
      with ("(" ++ numerator ++ ")" ++ String "/" ("(" ++ denominator ++ ")")).
    rewrite <- !append_assoc. apply In_chars_middle.
  - apply In_chars_middle.
Qed.

(** X9. The text of a fraction construct always contains its slash, so it
    passes both tests for parentheses, [is_complex] and [needs_parentheses],
    whatever numerator and denominator are. *)
Theorem fraction_text_needs_parentheses :
  forall name (arg0 arg1 : option A) rest numerator denominator g g1 g2,
    is_in name ["frac"; "dfrac"; "tfrac"] = true ->
    nodelist_to_text [arg0] g = (Return numerator, g1) ->
    nodelist_to_text [arg1] g1 = (Return denominator, g2) ->
    exists text,
      render (macro name (arg0 :: arg1 :: rest)) g = (Return text, g2)
      /\ is_complex text = true /\ needs_parentheses text = true.
Proof. exact frac_text_complex. Qed.

Lemma square_root_text c sqrt_rng g :
  square_root c sqrt_rng g =
    if sqrt_rng =? 0 then (Return ("sqrt(" ++ c ++ ")"), g)
    else (Return ((if needs_parentheses c then "(" ++ c ++ ")" else c)
                  ++ (if g O mod 2 =? 0 then "^" else "**")
                  ++ (if advance g O mod 2 =? 0 then "0.5" else "(1/2)")),
          advance (advance g)).
Proof.
  unfold square_root. destruct (sqrt_rng =? 0); [reflexivity |].
  rewrite (bind_Return _ _ _ _ _ (randint_0_1 g)).
  rewrite (bind_Return _ _ _ _ _ (randint_0_1 (advance g))).
  cbn. now rewrite power_text_parts.
Qed.

(** The tree walk hands a construct to [macro_node_to_text]. *)
Variable construct : MacroNode A -> A.
Hypothesis walk_construct :
  forall m g, nodelist_to_text [Some (construct m)] g = render m g.

(** X10. Under a tree walk that hands constructs to [macro_node_to_text],
    a fraction inside another construct is always set in parentheses: as
    the numerator of a fraction it makes the outer handler wrap both sides,
    and under a root without index it is wrapped in every power form. *)
Theorem nested_fraction_is_parenthesized :
  forall inner (arg0 arg1 : option A) numerator denominator,
    is_in inner ["frac"; "dfrac"; "tfrac"] = true ->
    (forall outer other other_text g g1 g2 g3,
        is_in outer ["frac"; "dfrac"; "tfrac"] = true ->
        nodelist_to_text [arg0] g = (Return numerator, g1) ->
        nodelist_to_text [arg1] g1 = (Return denominator, g2) ->
        nodelist_to_text [other] g2 = (Return other_text, g3) ->
        exists text,
          render (macro inner [arg0; arg1]) g = (Return text, g2)
          /\ render (macro outer [Some (construct (macro inner [arg0; arg1])); other]) g
             = (Return ("(" ++ text ++ ")/(" ++ other_text ++ ")"), g3))
    /\ (forall g g1 g2,
           nodelist_to_text [arg0] (advance g) = (Return numerator, g1) ->
           nodelist_to_text [arg1] g1 = (Return denominator, g2) ->
           exists text,
             render (macro inner [arg0; arg1]) (advance g) = (Return text, g2)
             /\ render (macro "sqrt" [None; Some (construct (macro inner [arg0; arg1]))]) g
                = if g O mod 2 =? 0 then (Return ("sqrt(" ++ text ++ ")"), g2)
                  else (Return ("(" ++ text ++ ")"
                                ++ (if g2 O mod 2 =? 0 then "^" else "**")
                                ++ (if advance g2 O mod 2 =? 0 then "0.5" else "(1/2)")),
                        advance (advance g2))).
Proof.
  intros inner arg0 arg1 numerator denominator Hinner. split.
  - intros outer other other_text g g1 g2 g3 Houter H0 H1 H2.
    destruct (frac_text_complex inner arg0 arg1 [] _ _ _ _ _ Hinner H0 H1)
      as (text & Htext & Hcomplex & _).
    exists text. split; [assumption |].
    rewrite <- walk_construct in Htext.
    rewrite (frac_text _ builtin_float builtin_str outer _ _ [] _ _ _ _ _
               Houter Htext H2).
    now rewrite Hcomplex.
  - intros g g1 g2 H0 H1.
    destruct (frac_text_complex inner arg0 arg1 [] _ _ _ _ _ Hinner H0 H1)
      as (text & Htext & _ & Hneeds).
    exists text. split; [assumption |].
    rewrite <- walk_construct in Htext.
    rewrite (sqrt_handler_without_index _ builtin_float builtin_str
               [None; Some (construct (macro inner [arg0; arg1]))] _ text g g2
               (or_intror (ex_intro _ [] eq_refl)) Htext).
    rewrite square_root_text, Hneeds.
    destruct (g O mod 2 =? 0); [reflexivity |].
    do 2 f_equal. rewrite !append_assoc. reflexivity.
Qed.

(** X11. A root with the index text [2] renders exactly as the root without
    index, draw for draw, when rendering the index draws nothing and [float]
    and [str] read [2] as 2 and write 0.5 as [0.5]. *)
Theorem sqrt_index_two_is_sqrt :
  forall (index : A) (radicand : option A) rest c g g1,
    nodelist_to_text [Some index] (advance g) = (Return "2", advance g) ->
    nodelist_to_text [radicand] (advance g) = (Return c, g1) ->
    builtin_float "2" = Return 2%float ->
    builtin_str 0.5%float = "0.5" ->
    render (macro "sqrt" (Some index :: radicand :: rest)) g
    = render (macro "sqrt" [None; radicand]) g
    /\ render (macro "sqrt" (Some index :: radicand :: rest)) g
       = render (macro "sqrt" [radicand]) g.
Proof.
  intros index radicand rest c g g1 H0 H1 Hfloat Hstr.
  rewrite (sqrt_handler_with_index _ _ _ _ _ _ _ _ _ _ _ H0 H1).
  rewrite (sqrt_handler_without_index _ builtin_float builtin_str
             [None; radicand] radicand c g g1
             (or_intror (ex_intro _ [] eq_refl)) H1).
  rewrite (sqrt_handler_without_index _ builtin_float builtin_str
             [radicand] radicand c g g1 (or_introl eq_refl) H1).
  assert (E : forall X, X = square_root c (g O mod 2) g1 -> X = square_root c (g O mod 2) g1 /\ X = square_root c (g O mod 2) g1) by (intros; now split).
  apply E. clear E.
  unfold try_except, bind, lift, truediv. rewrite Hfloat. cbn.
  unfold square_root.
  destruct (g O mod 2 =? 0); cbn; [reflexivity |].
  rewrite Hstr. cbn.
  now destruct (advance g1 O mod 2 =? 0).
Qed.

End Composition.

(** ** What a handler returns holds what its arguments rendered to *)

Lemma prefix_append a b : String.prefix a (a ++ b) = true.
Proof.
  induction a as [| x a IH]; [apply prefix_empty |].
  change (String x a ++ b) with (String x (a ++ b)). cbn [String.prefix].
  destruct (ascii_dec x x); [exact IH | congruence].
Qed.

Lemma contains_prefix a s : String.prefix a s = true -> Str.contains a s = true.
Proof. intros H. destruct s; cbn [Str.contains]; now rewrite H. Qed.

Lemma contains_append_r a x s :
  Str.contains a s = true -> Str.contains a (x ++ s) = true.
Proof.
  intros H. induction x as [| c x IH]; [exact H |].
  change (String c x ++ s) with (String c (x ++ s)). cbn [Str.contains].
  rewrite IH. apply orb_true_r.
Qed.

Lemma contains_middle a x y : Str.contains a (x ++ a ++ y) = true.
Proof. apply contains_append_r, contains_prefix, prefix_append. Qed.

Lemma chars_nonempty c s : In c (chars s) -> s <> "".
Proof. intros H ->. exact H. Qed.

Lemma power_text_contains c v r : Str.contains c (power_text c v r) = true.
Proof.
  rewrite power_text_parts. destruct (needs_parentheses c).
  - rewrite !append_assoc. apply contains_middle.
  - apply (contains_middle c "").
Qed.

Lemma power_text_nonempty c v r : power_text c v r <> "".
Proof.
  rewrite power_text_parts.
  destruct (r =? 0); [apply (chars_nonempty "^") | apply (chars_nonempty "*")];
    apply In_chars_middle.
Qed.

Lemma sqrt_text_nonempty c : "sqrt(" ++ c ++ ")" <> "".
Proof. apply (chars_nonempty "s"), (In_chars_middle ""). Qed.

Lemma square_root_forms c sqrt_rng g :
  exists text g',
    square_root c sqrt_rng g = (Return text, g')
    /\ (text = "sqrt(" ++ c ++ ")" \/ exists v r, text = power_text c v r).
Proof.
  unfold square_root. destruct (sqrt_rng =? 0).
  - eexists _, _. split; [reflexivity | now left].
  - rewrite (bind_Return _ _ _ _ _ (randint_0_1 g)).
    rewrite (bind_Return _ _ _ _ _ (randint_0_1 (advance g))).
    eexists _, _. split; [reflexivity | right; eauto].
Qed.

Lemma root_forms_contain c text :
  text = "sqrt(" ++ c ++ ")" \/ (exists v r, text = power_text c v r) ->
  Str.contains c text = true /\ text <> "".
Proof.
  intros [-> | (v & r & ->)]; split.
  - apply contains_middle.
  - apply sqrt_text_nonempty.
  - apply power_text_contains.
  - apply power_text_nonempty.
Qed.

Section Contents.

Context {A : Type}.
Variable nodelist_to_text : list (option A) -> Py string.
Variable builtin_float : string -> outcome float.
Variable builtin_str : float -> string.

#[local] Abbreviation render :=
  (macro_node_to_text nodelist_to_text builtin_float builtin_str).

(** The returns of the handler on a root with an index. *)
Lemma sqrt_with_index_forms (index : A) radicand rest t c g g1 g2 text g' :
  nodelist_to_text [Some index] (advance g) = (Return t, g1) ->
  nodelist_to_text [radicand] g1 = (Return c, g2) ->
  render (macro "sqrt" (Some index :: radicand :: rest)) g = (Return text, g') ->
  text = "sqrt(" ++ c ++ ")" \/ exists v r, text = power_text c v r.
Proof.
  intros H0 H1.
  rewrite (sqrt_handler_with_index _ _ _ _ _ _ _ _ _ _ _ H0 H1).
  intros H.
  match type of H with
  | bind ?m _ ?s = _ =>
      destruct (m s) as [[radicand' | e] g3] eqn:E;
        [rewrite (bind_Return _ _ _ _ _ E) in H
        | rewrite (bind_Raise _ _ _ _ _ E) in H; discriminate]
  end.
  match type of H with
  | (if ?b then _ else _) _ = _ => destruct b
  end.
  - injection H as <- _. now left.
  - match type of H with
    | bind ?m _ ?s = _ =>
        destruct (m s) as [[exp_rng | e] g4] eqn:E1;
          [rewrite (bind_Return _ _ _ _ _ E1) in H
          | rewrite (bind_Raise _ _ _ _ _ E1) in H; discriminate]
    end.
    match type of H with
    | bind ?m _ ?s = _ =>
        destruct (m s) as [[exp_value | e] g5] eqn:E2;
          [rewrite (bind_Return _ _ _ _ _ E2) in H
          | rewrite (bind_Raise _ _ _ _ _ E2) in H; discriminate]
    end.
    injection H as <- _. right. eauto.
Qed.

Lemma binom_handler_text (arg0 arg1 : option A) rest n k g g1 g2 :
  nodelist_to_text [arg0] g = (Return n, g1) ->
  nodelist_to_text [arg1] g1 = (Return k, g2) ->
  render (macro "binom" (arg0 :: arg1 :: rest)) g =
    (Return ("C(" ++ n ++ "," ++ k ++ ")"), g2).
Proof.
  intros H0 H1.
  change (render (macro "binom" (arg0 :: arg1 :: rest)))
    with (_custom_binom_handler nodelist_to_text (macro "binom" (arg0 :: arg1 :: rest))).
  unfold _custom_binom_handler. cbn. run H0. now run H1.
Qed.

Lemma subscript_text (arg : option A) rest content g g' :
  nodelist_to_text [arg] g = (Return content, g') ->
  render (macro "_" (arg :: rest)) g = (Return ("_(" ++ content ++ ")"), g').
Proof. intros H. unfold macro_node_to_text. cbn. now run H. Qed.

(** X12. What a handler returns holds the texts its arguments rendered to:
    numerator and denominator occur in the text of a fraction, both
    arguments in the text of a binomial, the content in a boxed value and in
    a subscript, and the radicand in every form of a root, with or without
    index. *)
Theorem rendered_arguments_are_kept :
  (forall name (arg0 arg1 : option A) rest first second g g1 g2,
      is_in name ["frac"; "dfrac"; "tfrac"; "binom"] = true ->
      nodelist_to_text [arg0] g = (Return first, g1) ->
      nodelist_to_text [arg1] g1 = (Return second, g2) ->
      exists text,
        render (macro name (arg0 :: arg1 :: rest)) g = (Return text, g2)
        /\ Str.contains first text = true /\ Str.contains second text = true)
  /\ (forall name (arg : option A) rest content g g',
         is_in name ["boxed"; "_"] = true ->
         nodelist_to_text [arg] g = (Return content, g') ->
         exists text,
           render (macro name (arg :: rest)) g = (Return text, g')
           /\ Str.contains content text = true)
  /\ (forall args (radicand : option A) content g g1,
         args = [radicand] \/ (exists rest, args = None :: radicand :: rest) ->
         nodelist_to_text [radicand] (advance g) = (Return content, g1) ->
         exists text g',
           render (macro "sqrt" args) g = (Return text, g')
           /\ Str.contains content text = true)
  /\ (forall (index : A) radicand rest t content g g1 g2 text g',
         nodelist_to_text [Some index] (advance g) = (Return t, g1) ->
         nodelist_to_text [radicand] g1 = (Return content, g2) ->
         render (macro "sqrt" (Some index :: radicand :: rest)) g = (Return text, g') ->
         Str.contains content text = true).
Proof.
  repeat split.
  - intros name arg0 arg1 rest first second g g1 g2 Hname H0 H1.
    cbn in Hname. rewrite orb_false_r in Hname.
    destruct (String.eqb name "binom") eqn:Ebinom.
    + apply String.eqb_eq in Ebinom. subst name.
      rewrite (binom_handler_text _ _ rest _ _ _ _ _ H0 H1).
      eexists. split; [reflexivity |]. split.
      * apply (contains_middle first "C(").
      * rewrite <- !append_assoc. rewrite append_assoc.
        apply contains_middle.
    + assert (Hfrac : is_in name ["frac"; "dfrac"; "tfrac"] = true)
        by exact Hname.
      rewrite (frac_text _ builtin_float builtin_str name _ _ rest _ _ _ _ _
                 Hfrac H0 H1).
      eexists. split; [reflexivity |].
      destruct (is_complex first || is_complex second); split.
      * apply (contains_middle first "(").
      * rewrite <- !append_assoc. rewrite append_assoc. apply contains_middle.
      * apply (contains_middle first "").
      * rewrite <- append_assoc. apply (contains_append_r second).
        rewrite <- (append_empty_r second) at 2. apply (contains_middle second "").
  - intros name arg rest content g g' Hname H.
    cbn in Hname. rewrite orb_false_r in Hname.
    apply orb_true_iff in Hname as [E | E]; apply String.eqb_eq in E; subst name.
    + rewrite (boxed_handler_text _ builtin_float builtin_str _ rest _ _ _ H).
      eexists. split; [reflexivity | apply contains_middle].
    + rewrite (subscript_text _ rest _ _ _ H).
      eexists. split; [reflexivity | apply contains_middle].
  - intros args radicand content g g1 Hargs H.
    rewrite (sqrt_handler_without_index _ builtin_float builtin_str
               args radicand content g g1 Hargs H).
    destruct (square_root_forms content (g O mod 2) g1) as (text & g' & E & Hforms).
    exists text, g'. split; [exact E | now apply root_forms_contain].
  - intros index radicand rest t content g g1 g2 text g' H0 H1 H.
    now apply root_forms_contain,
      (sqrt_with_index_forms index radicand rest t content g g1 g2 text g').
Qed.

(** A text returned on enough arguments is not empty. *)
Lemma text_on_arguments_nonempty name (arg : option A) rest text g g' :
  (name = "sqrt" \/ name = "boxed"
   \/ (is_in name ["frac"; "dfrac"; "tfrac"; "binom"] = true /\ rest <> [])) ->
  render (macro name (arg :: rest)) g = (Return text, g') ->
  text <> "".
Proof.
  intros [-> | [-> | [Hname Hrest]]] H.
  - (* sqrt *)
    assert (Hplain : forall radicand args,
               args = [radicand] \/ (exists rest, args = None :: radicand :: rest) ->
               render (macro "sqrt" args) g = (Return text, g') -> text <> "").
    { intros radicand args Hargs Hr.
      destruct (nodelist_to_text [radicand] (advance g)) as [[c | e] g1] eqn:E.
      - rewrite (sqrt_handler_without_index _ builtin_float builtin_str
                   args radicand c g g1 Hargs E) in Hr.
        destruct (square_root_forms c (g O mod 2) g1) as (text' & g'' & E' & Hforms).
        rewrite E' in Hr. injection Hr as <- _.
        now apply (root_forms_contain c).
      - exfalso. revert Hr.
        change (render (macro "sqrt" args))
          with (_custom_sqrt_handler nodelist_to_text builtin_float builtin_str
                  (macro "sqrt" args)).
        unfold _custom_sqrt_handler.
        destruct Hargs as [-> | [rest' ->]]; cbn;
          rewrite (bind_Raise _ _ _ _ _ E); discriminate. }
    destruct rest as [| radicand rest]; [now apply (Hplain arg [arg]); [left |] |].
    destruct arg as [index |];
      [| apply (Hplain radicand (None :: radicand :: rest)); [right; eauto | exact H]].
    destruct (nodelist_to_text [Some index] (advance g)) as [[t | e] g1] eqn:E0.
    + destruct (nodelist_to_text [radicand] g1) as [[c | e] g2] eqn:E1.
      * now apply (root_forms_contain c),
          (sqrt_with_index_forms index radicand rest t c g g1 g2 text g').
      * exfalso. revert H.
        change (render (macro "sqrt" (Some index :: radicand :: rest)))
          with (_custom_sqrt_handler nodelist_to_text builtin_float builtin_str
                  (macro "sqrt" (Some index :: radicand :: rest))).
        unfold _custom_sqrt_handler. cbn.
        rewrite (bind_Return _ _ _ _ _ E0). cbn.
        rewrite (bind_Raise _ _ _ _ _ E1). discriminate.
    + exfalso. revert H.
      change (render (macro "sqrt" (Some index :: radicand :: rest)))
        with (_custom_sqrt_handler nodelist_to_text builtin_float builtin_str
                (macro "sqrt" (Some index :: radicand :: rest))).
      unfold _custom_sqrt_handler. cbn.
      rewrite (bind_Raise _ _ _ _ _ E0). discriminate.
  - (* boxed *)
    destruct (nodelist_to_text [arg] g) as [[c | e] g1] eqn:E.
    + rewrite (boxed_handler_text _ builtin_float builtin_str _ rest _ _ _ E) in H.
      injection H as <- _. apply (chars_nonempty "["), (In_chars_middle "").
    + exfalso. revert H.
      change (render (macro "boxed" (arg :: rest)))
        with (_custom_boxed_handler nodelist_to_text (macro "boxed" (arg :: rest))).
      unfold _custom_boxed_handler. cbn.
      rewrite (bind_Raise _ _ _ _ _ E). discriminate.
  - (* frac, dfrac, tfrac, binom *)
    destruct rest as [| arg1 rest]; [congruence |]. clear Hrest.
    cbn in Hname. rewrite orb_false_r in Hname.
    destruct (String.eqb name "binom") eqn:Ebinom.
    + apply String.eqb_eq in Ebinom. subst name.
      destruct (nodelist_to_text [arg] g) as [[n | e] g1] eqn:E0;
        [destruct (nodelist_to_text [arg1] g1) as [[k | e] g2] eqn:E1 |].
      * rewrite (binom_handler_text _ _ rest _ _ _ _ _ E0 E1) in H.
        injection H as <- _. apply (chars_nonempty "C"), (In_chars_middle "").
      * exfalso. revert H.
        change (render (macro "binom" (arg :: arg1 :: rest)))
          with (_custom_binom_handler nodelist_to_text
                  (macro "binom" (arg :: arg1 :: rest))).
        unfold _custom_binom_handler. cbn.
        rewrite (bind_Return _ _ _ _ _ E0). cbn.
        rewrite (bind_Raise _ _ _ _ _ E1). discriminate.
      * exfalso. revert H.
        change (render (macro "binom" (arg :: arg1 :: rest)))
          with (_custom_binom_handler nodelist_to_text
                  (macro "binom" (arg :: arg1 :: rest))).
        unfold _custom_binom_handler. cbn.
        rewrite (bind_Raise _ _ _ _ _ E0). discriminate.
    + assert (Hfrac : is_in name ["frac"; "dfrac"; "tfrac"] = true)
        by exact Hname.
      rewrite (frac_dispatch _ builtin_float builtin_str
                 (macro name (arg :: arg1 :: rest)) Hfrac) in H.
      destruct (nodelist_to_text [arg] g) as [[n | e] g1] eqn:E0;
        [destruct (nodelist_to_text [arg1] g1) as [[k | e] g2] eqn:E1 |].
      * rewrite (frac_handler_text _ name _ _ rest _ _ _ _ _ E0 E1) in H.
        injection H as <- _. apply (chars_nonempty "/").
        destruct (is_complex n || is_complex k).
        -- change ("(" ++ n ++ ")/(" ++ k ++ ")")
             with ("(" ++ n ++ ")" ++ String "/" ("(" ++ k ++ ")")).
           rewrite <- !append_assoc. apply In_chars_middle.
        -- apply In_chars_middle.
      * exfalso. revert H. unfold _custom_frac_handler. cbn.
        rewrite (bind_Return _ _ _ _ _ E0). cbn.
        rewrite (bind_Raise _ _ _ _ _ E1). discriminate.
      * exfalso. revert H. unfold _custom_frac_handler. cbn.
        rewrite (bind_Raise _ _ _ _ _ E0). discriminate.
Qed.

(** X13. The handlers of roots, fractions, binomials and boxed values return
    the empty text exactly when arguments are missing: the node has no
    parsed arguments, or fewer than the handler reads (two for a fraction
    and a binomial, one for a root and a boxed value). With enough arguments
    the text is never empty, whatever the arguments render to. *)
Theorem empty_text_means_missing_arguments :
  forall (node : MacroNode A) g,
    is_in (macroname node) ["sqrt"; "frac"; "dfrac"; "tfrac"; "binom"; "boxed"] = true ->
    (exists g', render node g = (Return "", g'))
    <-> holds_fewer_than node
          (if is_in (macroname node) ["frac"; "dfrac"; "tfrac"; "binom"]
           then 2 else 1).
Proof.
  intros [name [[args] |]] g Hname; unfold holds_fewer_than;
    cbn [macroname nodeargd argnlist] in *.
  - split.
    + intros [g' H].
      destruct args as [| arg rest];
        [destruct (is_in name ["frac"; "dfrac"; "tfrac"; "binom"]);
         cbn [List.length]; lia |].
      change {| macroname := name; nodeargd := Some {| argnlist := arg :: rest |} |}
        with (macro name (arg :: rest)) in H.
      destruct (is_in name ["frac"; "dfrac"; "tfrac"; "binom"]) eqn:Etwo.
      * destruct rest as [| arg1 rest]; [cbn; lia |]. exfalso.
        apply (text_on_arguments_nonempty name arg (arg1 :: rest) "" g g');
          [right; right; split; [assumption | discriminate] | assumption | reflexivity].
      * exfalso.
        apply (text_on_arguments_nonempty name arg rest "" g g');
          [| assumption | reflexivity].
        cbn in Hname, Etwo. rewrite orb_false_r in Hname, Etwo.
        destruct (String.eqb name "sqrt") eqn:Esqrt;
          [left; now apply String.eqb_eq |].
        destruct (String.eqb name "boxed") eqn:Eboxed;
          [right; left; now apply String.eqb_eq |].
        exfalso.
        destruct (String.eqb name "frac"), (String.eqb name "dfrac"),
          (String.eqb name "tfrac"), (String.eqb name "binom"); discriminate.
    + intros Hfew. exists g.
      cbn in Hname. rewrite orb_false_r in Hname.
      repeat (apply orb_true_iff in Hname as [Hname | Hname]);
        apply String.eqb_eq in Hname; subst name; cbn in Hfew;
        destruct args as [| arg0 [| arg1 args]]; cbn in Hfew; try lia; reflexivity.
  - split; [intros _; exact I |]. intros _. exists g.
    cbn in Hname. rewrite orb_false_r in Hname.
    repeat (apply orb_true_iff in Hname as [Hname | Hname]);
      apply String.eqb_eq in Hname; subst name; reflexivity.
Qed.

End Contents.

(** ** The weights of the stochastic symbols *)

Lemma random_uniform g : random.random g = (Return (uniform g), advance g).
Proof. reflexivity. Qed.

(** [random.choices(population, weights)[0]]: the entry at the place where
    the draw, scaled by the total weight, falls among the running sums. *)
Lemma choices_pick {X} (population : list X) weights total g :
  List.length weights = List.length population ->
  List.last (List.map Some (random.accumulate None weights)) None = Some total ->
  (total + 0 <=? 0)%float = false ->
  (picked <- random.choices population weights ;; getitem picked 0) g
  = (match List.nth_error population
             (random.bisect (random.accumulate None weights)
                (uniform g * (total + 0))%float (List.length population - 1)) with
     | Some x => Return x
     | None => Raise IndexError
     end, advance g).
Proof.
  intros Hlen Hlast Htotal. unfold random.choices.
  rewrite length_accumulate, Hlen, Nat.eqb_refl, Hlast, Htotal. cbn [negb].
  unfold bind. rewrite random_uniform. unfold getitem.
  now destruct (List.nth_error population _).
Qed.

Lemma choices_of_two (name symbol : string) g :
  (picked <- random.choices [name; symbol] [0.8; 0.2]%float ;; getitem picked 0) g
  = (Return (if (uniform g * 1 <? 0.8)%float then name else symbol), advance g).
Proof.
  rewrite (choices_pick [name; symbol] [0.8; 0.2]%float 1%float g
             eq_refl eq_refl eq_refl).
  change (1 + 0)%float with 1%float.
  change (random.accumulate None [0.8; 0.2]%float) with [0.8; 1]%float.
  cbn [List.length Nat.sub random.bisect].
  now destruct (uniform g * 1 <? 0.8)%float.
Qed.

Lemma choices_of_three (a b c : string) g :
  (picked <- random.choices [a; b; c] [0.4; 0.4; 0.2]%float ;; getitem picked 0) g
  = (Return (if (uniform g * 1 <? 0.4)%float then a
             else if (uniform g * 1 <? 0.8)%float then b else c), advance g).
Proof.
  rewrite (choices_pick [a; b; c] [0.4; 0.4; 0.2]%float 1%float g
             eq_refl eq_refl eq_refl).
  change (1 + 0)%float with 1%float.
  change (random.accumulate None [0.4; 0.4; 0.2]%float) with [0.4; 0.8; 1]%float.
  cbn [List.length Nat.sub random.bisect].
  destruct (uniform g * 1 <? 0.4)%float; [reflexivity |].
  now destruct (uniform g * 1 <? 0.8)%float.
Qed.

Section Weights.

Context {A : Type}.
Variable nodelist_to_text : list (option A) -> Py string.
Variable builtin_float : string -> outcome float.
Variable builtin_str : float -> string.

#[local] Abbreviation render :=
  (macro_node_to_text nodelist_to_text builtin_float builtin_str).

(** X14. The stochastic symbols follow their weights. Each draws one number
    [u] of the generator, as [random.random()] does: [infty] is [infinity]
    when [u] is below 0.4, [inf] when it is below 0.8 and the symbol
    otherwise; [pi] and every Greek letter of the table are spelled out when
    [u] is below 0.8 and are the symbol otherwise. *)
Theorem stochastic_symbols_follow_the_weights :
  forall nodeargd g,
    let u := (uniform g * 1)%float in
    render {| macroname := "infty"; nodeargd := nodeargd |} g
    = (Return (if (u <? 0.4)%float then "infinity"
               else if (u <? 0.8)%float then "inf" else "∞"), advance g)
    /\ render {| macroname := "pi"; nodeargd := nodeargd |} g
       = (Return (if (u <? 0.8)%float then "pi" else "π"), advance g)
    /\ List.Forall
         (fun letter =>
            render {| macroname := fst letter; nodeargd := nodeargd |} g
            = (Return (if (u <? 0.8)%float then fst letter else snd letter),
               advance g))
         _greek_letters.
Proof.
  intros nodeargd g u. subst u. split; [| split].
  - exact (choices_of_three "infinity" "inf" "∞" g).
  - exact (choices_of_two "pi" "π" g).
  - unfold _greek_letters at 1.
    repeat (apply List.Forall_cons;
            [cbn beta; cbn [fst snd];
             match goal with
             | |- _ = (Return (if _ then ?name else ?symbol), _) =>
                 exact (choices_of_two name symbol g)
             end |]).
    apply List.Forall_nil.
Qed.

(** X15. The handler that [_custom_greek_handler(name, symbol)] makes
    returns [name] when the draw is below 0.8 and [symbol] otherwise, and
    draws one number. [_get_greek_letter_text(name)] is that handler with
    the symbol of the table; for a name outside the table both choices are
    the name, so it returns the name whatever is drawn. *)
Theorem greek_handler_text :
  forall name symbol (node : MacroNode A) g,
    _custom_greek_handler name symbol node g
    = (Return (if (uniform g * 1 <? 0.8)%float then name else symbol), advance g)
    /\ (dict_get _greek_letters name = Some symbol ->
          _get_greek_letter_text name g = _custom_greek_handler name symbol node g)
    /\ (dict_get _greek_letters name = None ->
          _get_greek_letter_text name g = (Return name, advance g)).
Proof.
  intros name symbol node g. split; [apply choices_of_two |]. split; intros H.
  - unfold _get_greek_letter_text, _custom_greek_handler. now rewrite H.
  - unfold _get_greek_letter_text. rewrite H, choices_of_two.
    now destruct (uniform g * 1 <? 0.8)%float.
Qed.

(** X16. The replacement texts of [_get_custom_text_specs], which the
    constructor does not install, are the texts [macro_node_to_text] returns
    for these macros: the two places agree. *)
Theorem text_specs_agree :
  List.Forall
    (fun spec =>
       forall nodeargd g,
         render {| macroname := fst spec; nodeargd := nodeargd |} g
         = (Return (snd spec), g))
    _get_custom_text_specs.
Proof. repeat constructor. Qed.

End Weights.

(** ** The declared signatures *)

Section Signatures.

Context {A : Type}.
Variable nodelist_to_text : list (option A) -> Py string.
Variable builtin_float : string -> outcome float.
Variable builtin_str : float -> string.

#[local] Abbreviation render :=
  (macro_node_to_text nodelist_to_text builtin_float builtin_str).

(** X17. The signatures of [_get_custom_macro_specs] fit what
    [macro_node_to_text] reads. On a node that carries one argument per
    character of its declared signature, the handlers of roots, fractions,
    binomials and boxed values never return the empty text of a missing
    argument; a macro declared without arguments is rendered without the
    tree walk, [float] or [str]; and [mathbb], declared without arguments,
    renders as the empty text. *)
Theorem declared_signatures_fit :
  forall (node : MacroNode A),
    follows_its_spec node ->
    (is_in (macroname node) ["sqrt"; "frac"; "dfrac"; "tfrac"; "binom"; "boxed"] = true ->
     forall g g', render node g <> (Return "", g'))
    /\ (arguments node = [] ->
        forall walk float str, render node = macro_node_to_text walk float str node)
    /\ (macroname node = "mathbb" -> render node = ret "").
Proof.
  intros [name argd] (argspec & [args] & Hin & Hargd & Hlen).
  cbn [macroname nodeargd argnlist] in *. subst argd.
  unfold arguments. cbn [nodeargd argnlist].
  unfold _get_custom_macro_specs in Hin. cbn [List.app List.map] in Hin.
  repeat (destruct Hin as [Hin | Hin];
          [injection Hin as <- <-;
           cbn [String.length] in Hlen;
           repeat (destruct args as [| ? args]; cbn [List.length] in Hlen;
                   try discriminate Hlen);
           (split; [| split]);
           [ intros Hname g g' H; try discriminate Hname;
             revert H;
             match goal with
             | |- render {| macroname := ?n;
                            nodeargd := Some {| argnlist := ?a :: ?r |} |} _ = _
                  -> _ =>
                 intros H;
                 apply (text_on_arguments_nonempty nodelist_to_text builtin_float
                          builtin_str n a r "" g g');
                 [first [ now left | now (right; left)
                        | right; right; split; [reflexivity | discriminate]]
                 | exact H | reflexivity]
             end
           | intros Hnone; try discriminate Hnone; reflexivity
           | intros Hname; try discriminate Hname; reflexivity ]
          |]).
  contradiction.
Qed.

End Signatures.

(** ** Upright text *)

Section Upright.

Context {A : Type}.
Variable nodelist_to_text : list (option A) -> Py string.
Variable builtin_float : string -> outcome float.
Variable builtin_str : float -> string.

#[local] Abbreviation render :=
  (macro_node_to_text nodelist_to_text builtin_float builtin_str).

(** X18. The [mathrm] handler changes blanks at the two ends of its content
    at most: the text it returns and the rendered content are the same once
    trimmed. *)
Theorem mathrm_only_trims :
  forall (arg : option A) rest content g g',
    nodelist_to_text [arg] g = (Return content, g') ->
    exists text,
      render (macro "mathrm" (arg :: rest)) g = (Return text, g')
      /\ Str.strip text = Str.strip content.
Proof.
  intros arg rest content g g' H.
  change (render (macro "mathrm" (arg :: rest)))
    with (_custom_mathrm_handler nodelist_to_text (macro "mathrm" (arg :: rest))).
  unfold _custom_mathrm_handler. cbn. run H.
  destruct (String.eqb (Str.strip content) "e") eqn:E;
    eexists; (split; [reflexivity |]); [| reflexivity].
  apply String.eqb_eq in E. now rewrite E.
Qed.

End Upright.

(** ** Instances of the further properties *)

(** X8, at an instance: the sum [a+b]. *)
Lemma complex_texts_need_parentheses_witness : needs_parentheses "a+b" = true.
Proof. exact (proj1 complex_texts_need_parentheses "a+b" eq_refl). Defined.

(** X9, at an instance: [\frac{a}{b}]. *)
Lemma fraction_text_needs_parentheses_witness :
  exists text,
    macro_node_to_text literal_text Builtins.float Builtins.str
      (macro "frac" [Some "a"; Some "b"]) (tape []) = (Return text, tape [])
    /\ is_complex text = true /\ needs_parentheses text = true.
Proof.
  exact (fraction_text_needs_parentheses literal_text Builtins.float Builtins.str
           "frac" (Some "a") (Some "b") [] "a" "b" (tape []) (tape []) (tape [])
           eq_refl eq_refl eq_refl).
Defined.

(** X10, at an instance: [\frac{\frac{a}{b}}{c}] under the walk over
    [Node]. *)
Lemma nested_fraction_is_parenthesized_witness :
  exists text,
    macro_node_to_text (nodelist_to_text Builtins.float Builtins.str)
      Builtins.float Builtins.str
      (macro "frac" [Some (Text "a"); Some (Text "b")]) (tape [])
    = (Return text, tape [])
    /\ macro_node_to_text (nodelist_to_text Builtins.float Builtins.str)
         Builtins.float Builtins.str
         (macro "frac"
            [Some (Construct (macro "frac" [Some (Text "a"); Some (Text "b")]));
             Some (Text "c")]) (tape [])
       = (Return ("(" ++ text ++ ")/(" ++ "c" ++ ")"), tape []).
Proof.
  exact (proj1 (nested_fraction_is_parenthesized
                  (nodelist_to_text Builtins.float Builtins.str)
                  Builtins.float Builtins.str Construct
                  (nodelist_to_text_Construct Builtins.float Builtins.str)
                  "frac" (Some (Text "a")) (Some (Text "b")) "a" "b" eq_refl)
           "frac" (Some (Text "c")) "c" (tape []) (tape []) (tape []) (tape [])
           eq_refl eq_refl eq_refl eq_refl).
Defined.

(** X11, at an instance: [\sqrt[2]{x}] and [\sqrt{x}] with the draws
    1, 1, 0. *)
Lemma sqrt_index_two_is_sqrt_witness :
  macro_node_to_text literal_text Builtins.float Builtins.str
    (macro "sqrt" [Some "2"; Some "x"]) (tape [1; 1; 0])
  = macro_node_to_text literal_text Builtins.float Builtins.str
      (macro "sqrt" [None; Some "x"]) (tape [1; 1; 0])
  /\ macro_node_to_text literal_text Builtins.float Builtins.str
       (macro "sqrt" [Some "2"; Some "x"]) (tape [1; 1; 0])
     = macro_node_to_text literal_text Builtins.float Builtins.str
         (macro "sqrt" [Some "x"]) (tape [1; 1; 0]).
Proof.
  exact (sqrt_index_two_is_sqrt literal_text Builtins.float Builtins.str
           "2" (Some "x") [] "x" (tape [1; 1; 0]) (tape [1; 0])
           eq_refl eq_refl eq_refl eq_refl).
Defined.

(** X12, at an instance: [\frac{a+1}{b}]. *)
Lemma rendered_arguments_are_kept_witness :
  exists text,
    macro_node_to_text literal_text Builtins.float Builtins.str
      (macro "frac" [Some "a+1"; Some "b"]) (tape []) = (Return text, tape [])
    /\ Str.contains "a+1" text = true /\ Str.contains "b" text = true.
Proof.
  exact (proj1 (rendered_arguments_are_kept literal_text Builtins.float Builtins.str)
           "frac" (Some "a+1") (Some "b") [] "a+1" "b" (tape []) (tape []) (tape [])
           eq_refl eq_refl eq_refl).
Defined.

(** X13, at an instance: a fraction with one argument. *)
Lemma empty_text_means_missing_arguments_witness :
  (exists g',
      macro_node_to_text literal_text Builtins.float Builtins.str
        (macro "frac" [Some "a"]) (tape []) = (Return "", g'))
  <-> holds_fewer_than (macro "frac" [Some "a"]) 2.
Proof.
  exact (empty_text_means_missing_arguments literal_text Builtins.float Builtins.str
           (macro "frac" [Some "a"]) (tape []) eq_refl).
Defined.

(** X15, at an instance: the letter alpha. *)
Lemma greek_handler_text_witness :
  _get_greek_letter_text "alpha" (tape [0])
  = _custom_greek_handler "alpha" "α" (macro "alpha" [Some "x"]) (tape [0]).
Proof.
  exact (proj1 (proj2 (greek_handler_text "alpha" "α" (macro "alpha" [Some "x"])
                         (tape [0])))
           eq_refl).
Defined.

(** X17, at an instance: [\sqrt[3]{x}], which carries the two arguments of
    its signature. *)
Lemma declared_signatures_fit_witness :
  macro_node_to_text literal_text Builtins.float Builtins.str
    (macro "sqrt" [Some "3"; Some "x"]) (tape [0]) <> (Return "", tape [0]).
Proof.
  refine (proj1 (declared_signatures_fit literal_text Builtins.float Builtins.str
                   (macro "sqrt" [Some "3"; Some "x"]) _)
            eq_refl (tape [0]) (tape [0])).
  exists "[{", {| argnlist := [Some "3"; Some "x"] |}.
  split; [left; reflexivity | split; reflexivity].
Defined.

(** X18, at an instance: [\mathrm{ e }]. *)
Lemma mathrm_only_trims_witness :
  exists text,
    macro_node_to_text literal_text Builtins.float Builtins.str
      (macro "mathrm" [Some " e "]) (tape []) = (Return text, tape [])
    /\ Str.strip text = Str.strip " e ".
Proof.
  exact (mathrm_only_trims literal_text Builtins.float Builtins.str
           (Some " e ") [] " e " (tape []) (tape []) eq_refl).
Defined.

(** * The generator of the process *)

Lemma decided_ret {X} (x : X) : decided_by_the_call (ret x).
Proof. intros g g'. reflexivity. Qed.

Lemma decided_raise {X} e : decided_by_the_call (@raise X e).
Proof. intros g g'. reflexivity. Qed.

Lemma decided_bind {X Y} (m : Py X) (k : X -> Py Y) :
  decided_by_the_call m -> (forall x, decided_by_the_call (k x)) ->
  decided_by_the_call (bind m k).
Proof.
  intros Hm Hk g g'. unfold bind. specialize (Hm g g').
  destruct (m g) as [o1 s1], (m g') as [o2 s2]. cbn in Hm. subst o2.
  destruct o1 as [x | e]; [apply Hk | reflexivity].
Qed.

Lemma decided_getitem {X} (l : list X) i : decided_by_the_call (getitem l i).
Proof.
  unfold getitem. destruct (List.nth_error l i);
    [apply decided_ret | apply decided_raise].
Qed.

Lemma decided_bind_getitem {X Y} (l : list X) i (k : X -> Py Y) :
  (forall x, In x l -> decided_by_the_call (k x)) ->
  decided_by_the_call (bind (getitem l i) k).
Proof.
  intros Hk. unfold getitem.
  destruct (List.nth_error l i) as [x |] eqn:E.
  - intros g g'. rewrite !bind_ret.
    apply Hk. eapply List.nth_error_In; eassumption.
  - intros g g'. reflexivity.
Qed.

Lemma concat_texts_decided (renderings : list (option (Py string))) :
  List.Forall
    (fun r => match r with Some m => decided_by_the_call m | None => True end)
    renderings ->
  decided_by_the_call (concat_texts renderings).
Proof.
  induction 1 as [| r l Hr Hl IH]; cbn; [apply decided_ret |].
  apply decided_bind; [destruct r; [assumption | apply decided_ret] |].
  intros s. apply decided_bind; [assumption | intros; apply decided_ret].
Qed.

Create HintDb decided discriminated.
#[export] Hint Resolve decided_ret decided_raise decided_getitem : decided.

(** [decide_call] proves [decided_by_the_call] of a computation built from
    binds, tests and calls that are decided. *)
Ltac decide_call :=
  repeat first
    [ progress auto with decided
    | apply decided_bind_getitem; intros ? ?
    | apply decided_bind; [| intros ? ]
    | match goal with
      | |- decided_by_the_call (if ?c then _ else _) => destruct c
      | |- decided_by_the_call (match ?x with _ => _ end) => destruct x
      end ].

Lemma append_cancel_l (a b c : string) : a ++ b = a ++ c -> b = c.
Proof.
  induction a as [| x a IH]; [easy |].
  change (String x a ++ b) with (String x (a ++ b)).
  change (String x a ++ c) with (String x (a ++ c)).
  intros [= H]. now apply IH.
Qed.

Lemma power_texts_differ c v : power_text c v 0 <> power_text c v 1.
Proof.
  rewrite !power_text_parts. intros H. apply append_cancel_l in H.
  discriminate H.
Qed.

Section Process.

Context {A : Type}.
Variable nodelist_to_text : list (option A) -> Py string.
Variable builtin_float : string -> outcome float.
Variable builtin_str : float -> string.

#[local] Abbreviation render :=
  (macro_node_to_text nodelist_to_text builtin_float builtin_str).

(** Outside the stochastic names no branch draws. *)
Lemma other_constructs_decided (node : MacroNode A) :
  is_in (macroname node) stochastic_names = false ->
  (forall arg, In arg (arguments node) ->
     decided_by_the_call (nodelist_to_text [arg])) ->
  decided_by_the_call (render node).
Proof.
  destruct node as [name [[args] |]]; cbn [macroname]; intros Hname Hwalk;
    cbn in Hname, Hwalk;
    repeat (apply orb_false_elim in Hname; destruct Hname as [?H Hname]);
    unfold macro_node_to_text, super_macro_node_to_text, dict_get,
      _custom_frac_handler, _custom_binom_handler, _custom_mathrm_handler,
      _custom_boxed_handler, first_argument, has_arguments;
    cbn;
    rewrite ?andb_false_r;
    repeat match goal with
           | E : (name =? _)%string = false |- _ => rewrite E; clear E
           end.
  all: cbn [option_map]; decide_call.
Qed.

Lemma root_without_index_not_decided args (radicand : option A) c :
  args = [radicand] \/ (exists rest, args = None :: radicand :: rest) ->
  (forall g, nodelist_to_text [radicand] g = (Return c, g)) ->
  ~ decided_by_the_call (render (macro "sqrt" args)).
Proof.
  intros Hargs H Hd. specialize (Hd (tape [1; 0; 0]) (tape [1; 1; 0])).
  rewrite !(sqrt_handler_without_index _ builtin_float builtin_str
              args radicand c _ _ Hargs (H _)) in Hd.
  rewrite !square_root_text in Hd. cbn in Hd.
  injection Hd as Hd. apply append_cancel_l in Hd. discriminate Hd.
Qed.

(** A root with an index, from a state whose first and third numbers are
    odd: the power form with the literal fraction. *)
Lemma root_with_index_literal (index : A) radicand rest t c g :
  (forall text e, builtin_float text = Raise e -> e = ValueError) ->
  (forall g, nodelist_to_text [Some index] g = (Return t, g)) ->
  (forall g, nodelist_to_text [radicand] g = (Return c, g)) ->
  (g O mod 2 =? 0) = false ->
  (advance (advance g) O mod 2 =? 0) = false ->
  fst (render (macro "sqrt" (Some index :: radicand :: rest)) g)
  = Return (power_text c (literal_fraction t) (advance g O mod 2)).
Proof.
  intros Hfloat H0 H1 Hfirst Hthird.
  rewrite (sqrt_handler_with_index _ _ _ _ _ _ _ _ _ _ _ (H0 _) (H1 _)).
  rewrite Hfirst.
  assert (Htry : exists rad,
             try_except (r <- lift (builtin_float t) ;; ret (Some r))
               [ValueError; TypeError] (ret None) (advance g)
             = (Return rad, advance g)).
  { unfold try_except, bind, lift.
    destruct (builtin_float t) as [r | e] eqn:Ef; [now exists (Some r) |].
    rewrite (Hfloat _ _ Ef). now exists None. }
  destruct Htry as [rad Htry]. rewrite (bind_Return _ _ _ _ _ Htry).
  rewrite andb_false_r.
  rewrite (bind_Return _ _ _ _ _ (randint_0_1 (advance g))).
  match goal with
  | |- fst (bind ?block _ ?s) = _ =>
      assert (Hblock : exists g3, block s = (Return (literal_fraction t), g3))
  end.
  { destruct rad as [r |]; [| now eexists].
    unfold try_except, truediv.
    destruct (r =? 0)%float; [now eexists |].
    rewrite bind_ret.
    rewrite (bind_Return _ _ _ _ _ (decimal_part_run _ _)).
    rewrite (bind_Return _ _ _ _ _ (randint_0_1 _)).
    rewrite Hthird, andb_false_r. now eexists. }
  destruct Hblock as [g3 Hblock]. now rewrite (bind_Return _ _ _ _ _ Hblock).
Qed.

Lemma root_with_index_not_decided (index : A) radicand rest t c :
  (forall text e, builtin_float text = Raise e -> e = ValueError) ->
  (forall g, nodelist_to_text [Some index] g = (Return t, g)) ->
  (forall g, nodelist_to_text [radicand] g = (Return c, g)) ->
  ~ decided_by_the_call (render (macro "sqrt" (Some index :: radicand :: rest))).
Proof.
  intros Hfloat H0 H1 Hd. specialize (Hd (tape [1; 0; 1]) (tape [1; 1; 1])).
  rewrite (root_with_index_literal index radicand rest t c (tape [1; 0; 1])
             Hfloat H0 H1 eq_refl eq_refl) in Hd.
  rewrite (root_with_index_literal index radicand rest t c (tape [1; 1; 1])
             Hfloat H0 H1 eq_refl eq_refl) in Hd.
  injection Hd as Hd. now apply power_texts_differ in Hd.
Qed.

Lemma root_not_decided (args : list (option A)) :
  (forall text e, builtin_float text = Raise e -> e = ValueError) ->
  args <> [] ->
  (forall arg, In arg args ->
     exists text, forall g, nodelist_to_text [arg] g = (Return text, g)) ->
  ~ decided_by_the_call (render (macro "sqrt" args)).
Proof.
  intros Hfloat Hargs Hwalk.
  destruct args as [| arg0 [| arg1 rest]]; [congruence | |].
  - destruct (Hwalk arg0) as [c H]; [now left |].
    now apply (root_without_index_not_decided [arg0] arg0 c); [left |].
  - destruct (Hwalk arg1) as [c H1]; [right; now left |].
    destruct arg0 as [index |].
    + destruct (Hwalk (Some index)) as [t H0]; [now left |].
      now apply (root_with_index_not_decided index arg1 rest t c).
    + apply (root_without_index_not_decided (None :: arg1 :: rest) arg1 c);
        [right; eauto | assumption].
Qed.

Lemma symbols_not_decided nodeargd :
  ~ decided_by_the_call (render {| macroname := "infty"; nodeargd := nodeargd |})
  /\ ~ decided_by_the_call (render {| macroname := "pi"; nodeargd := nodeargd |})
  /\ List.Forall
       (fun letter =>
          ~ decided_by_the_call
              (render {| macroname := fst letter; nodeargd := nodeargd |}))
       _greek_letters.
Proof.
  assert (Two : forall (name symbol : string),
             name <> symbol ->
             ~ decided_by_the_call
                 (picked <- random.choices [name; symbol] [0.8; 0.2]%float ;;
                  getitem picked 0)).
  { intros name symbol Hne Hd.
    specialize (Hd (tape [0]) (tape [9007199254740991])).
    rewrite !choices_of_two in Hd.
    change (uniform (tape [0%Z]) * 1 <? 0.8)%float with true in Hd.
    change (uniform (tape [9007199254740991%Z]) * 1 <? 0.8)%float with false in Hd.
    cbn in Hd. congruence. }
  split; [| split].
  - intros Hd. specialize (Hd (tape [0]) (tape [9007199254740991])).
    change (fst ((picked <- random.choices ["infinity"; "inf"; "∞"]
                               [0.4; 0.4; 0.2]%float ;;
                  getitem picked 0) (tape [0]))
            = fst ((picked <- random.choices ["infinity"; "inf"; "∞"]
                                 [0.4; 0.4; 0.2]%float ;;
                    getitem picked 0) (tape [9007199254740991]))) in Hd.
    rewrite !choices_of_three in Hd.
    change (uniform (tape [0%Z]) * 1 <? 0.4)%float with true in Hd.
    change (uniform (tape [9007199254740991%Z]) * 1 <? 0.4)%float with false in Hd.
    change (uniform (tape [9007199254740991%Z]) * 1 <? 0.8)%float with false in Hd.
    discriminate Hd.
  - apply (Two "pi" "π"). discriminate.
  - unfold _greek_letters at 1.
    repeat (apply List.Forall_cons;
            [cbn beta; cbn [fst snd];
             match goal with
             | |- ~ decided_by_the_call
                      (render {| macroname := ?name; nodeargd := _ |}) =>
                 let symbol :=
                   eval cbv in
                     (match dict_get _greek_letters name with
                      | Some s => s | None => name end) in
                 apply (Two name symbol); discriminate
             end |]).
    apply List.Forall_nil.
Qed.

(** C2 (as amended). Stochastic choices are drawn from the generator of the
    [random] module, the generator of the process: no rendering call takes a
    random source. So the text of a stochastic construct is not decided by
    the call. A root with arguments that render without drawing, [infty],
    [pi] and every Greek letter of the table each render to different texts
    from different states of that generator, the converter and the node
    being the same. Every other construct is decided by the call when its
    arguments are. What the generator delivers decides the text: from two
    states that deliver the same numbers, rendering a construct ends with
    the same text (or the same exception) and leaves states that again
    deliver the same numbers, when the walk called back does. *)
Theorem stochastic_choices_come_from_the_process :
  (forall args : list (option A),
      (forall text e, builtin_float text = Raise e -> e = ValueError) ->
      args <> [] ->
      (forall arg, In arg args ->
         exists text, forall g, nodelist_to_text [arg] g = (Return text, g)) ->
      ~ decided_by_the_call (render (macro "sqrt" args)))
  /\ (forall nodeargd,
         ~ decided_by_the_call
             (render {| macroname := "infty"; nodeargd := nodeargd |})
         /\ ~ decided_by_the_call
               (render {| macroname := "pi"; nodeargd := nodeargd |})
         /\ List.Forall
              (fun letter =>
                 ~ decided_by_the_call
                     (render {| macroname := fst letter; nodeargd := nodeargd |}))
              _greek_letters)
  /\ (forall node : MacroNode A,
         is_in (macroname node) stochastic_names = false ->
         (forall arg, In arg (arguments node) ->
            decided_by_the_call (nodelist_to_text [arg])) ->
         decided_by_the_call (render node))
  /\ (forall node : MacroNode A,
         (forall nodelist, replayable (nodelist_to_text nodelist)) ->
         forall g g',
           same_draws g g' ->
           fst (render node g) = fst (render node g')
           /\ same_draws (snd (render node g)) (snd (render node g'))).
Proof.
  split; [exact root_not_decided |].
  split; [exact symbols_not_decided |].
  split; [exact other_constructs_decided |].
  intros node Hwalk. apply macro_node_to_text_replayable.
  intros arg _. apply Hwalk.
Qed.

End Process.

Lemma literal_text_decided nodelist : decided_by_the_call (literal_text nodelist).
Proof.
  apply concat_texts_decided.
  induction nodelist as [| [text |] l IH]; cbn; constructor;
    try assumption; [apply decided_ret | exact I].
Qed.

Lemma same_draws_padded : same_draws (tape [1]) (tape [1; 0]).
Proof. intros [| [| [| n]]]; reflexivity. Qed.

(** C2, at an instance: the root [\sqrt[3]{x}], the fraction [\frac{a}{b}]
    from two states of the generator, and [\sqrt{x}] from two states that
    deliver 1 and then zeros. *)
Lemma stochastic_choices_come_from_the_process_witness :
  ~ decided_by_the_call
      (macro_node_to_text literal_text Builtins.float Builtins.str
         (macro "sqrt" [Some "3"; Some "x"]))
  /\ fst (macro_node_to_text literal_text Builtins.float Builtins.str
            (macro "frac" [Some "a"; Some "b"]) (tape [0; 1]))
     = fst (macro_node_to_text literal_text Builtins.float Builtins.str
              (macro "frac" [Some "a"; Some "b"]) (tape [1; 0]))
  /\ fst (macro_node_to_text literal_text Builtins.float Builtins.str
            (macro "sqrt" [None; Some "x"]) (tape [1]))
     = fst (macro_node_to_text literal_text Builtins.float Builtins.str
              (macro "sqrt" [None; Some "x"]) (tape [1; 0])).
Proof.
  split; [| split].
  - apply (proj1 (stochastic_choices_come_from_the_process
                    literal_text Builtins.float Builtins.str)).
    + exact Builtins_float_raises_ValueError.
    + discriminate.
    + intros arg [<- | [<- | []]]; eexists; intros g; reflexivity.
  - exact (proj1 (proj2 (proj2 (stochastic_choices_come_from_the_process
                                  literal_text Builtins.float Builtins.str)))
             (macro "frac" [Some "a"; Some "b"]) eq_refl
             (fun arg _ => literal_text_decided [arg])
             (tape [0; 1]) (tape [1; 0])).
  - exact (proj1 (proj2 (proj2 (proj2 (stochastic_choices_come_from_the_process
                                         literal_text Builtins.float Builtins.str)))
                    (macro "sqrt" [None; Some "x"]) literal_text_replayable
                    (tape [1]) (tape [1; 0]) same_draws_padded)).
Defined.

(** C2 as stated fails. Were the random source supplied by the caller, the
    text would be decided by what the call passes. The call that renders
    [\sqrt{x}] passes the converter and the node and nothing else, and
    its text is [sqrt(x)] from one state of the generator of the process
    and [x^0.5] from another. *)
Lemma the_same_call_gives_two_texts :
  fst (macro_node_to_text literal_text Builtins.float Builtins.str
         (macro "sqrt" [Some "x"]) (tape [0])) = Return "sqrt(x)"
  /\ fst (macro_node_to_text literal_text Builtins.float Builtins.str
            (macro "sqrt" [Some "x"]) (tape [1])) = Return "x^0.5"
  /\ ~ decided_by_the_call
         (macro_node_to_text literal_text Builtins.float Builtins.str
            (macro "sqrt" [Some "x"])).
Proof.
  split; [reflexivity | split; [reflexivity |]].
  intros H. specialize (H (tape [0]) (tape [1])). discriminate H.
Qed.
